(** * service.log: live tailing of log events

    A shallow embedding of the subscription registry of package [watch]
    ([Watcher.Subscribe], [Watcher.Unsubscribe], [Watcher.notifySubscribers])
    and of the historical page of package [handler]
    ([ReadHandler.HandleRead]), followed by the properties the specification
    states about them.

    Go pointers are locations in a store, Go maps are [gmap]s (a nil map is
    [None]), a buffered channel is a bounded queue with a closed flag, and a
    run-time panic (nil dereference, index out of range, send on a closed
    channel) is the outcome [None]. *)

From stdpp Require Import base option list gmap strings sorting.
From Stdlib Require Import ZArith Lia Ascii.
From Stdlib Require OrderedTypeEx.

Local Open Scope Z_scope.
Local Open Scope string_scope.
Local Open Scope list_scope.

(** ** Library types *)

(** [time.Time] as the number of nanoseconds elapsed since the zero instant
    (January 1, year 1, 00:00:00 UTC), so that the zero value of the Go type
    is [0]; the wall clock never reads that instant. *)
Definition Time := Z.

Definition IsZero (t : Time) : bool := bool_decide (t = 0).

(** [time.Duration] counts nanoseconds. *)
Definition Duration := Z.
Definition Nanosecond : Duration := 1.
Definition Second : Duration := 1000000000 * Nanosecond.
Definition Minute : Duration := 60 * Second.
Definition Hour : Duration := 60 * Minute.

Definition Add (t : Time) (d : Duration) : Time := t + d.

(** Modelled from the spec: package [libraries/go/errors] is not among the
    sources.  The source builds its errors with [errors.InternalService] and
    [errors.Wrap]; [InvalidArgument] is the invalid-argument condition of
    the error taxonomy of the specification (section 7). *)
Inductive error :=
  | InternalService (msg : string)
  | Wrap (cause : string)
  | InvalidArgument (msg : string).

(** A Go result pair [(value, err)] with exactly one side set. *)
Inductive result (A : Type) :=
  | Ok (a : A)
  | Err (e : error).
Arguments Ok {A} a.
Arguments Err {A} e.

(** ** Package domain *)

Module domain.

(** Modelled from the spec: [domain.Event] is not among the sources, which
    read its field [UUID] only; the other fields are those of the data
    model of the specification (section 3). *)
Record Event := mkEvent {
  UUID : string;
  Service : string;
  Severity : Z;
  Timestamp : Time;
  Message : string
}.

End domain.

(** ** Package repository *)

Module repository.

(** The fields of [repository.LogQuery], as [parseQuery] fills them in. *)
Record LogQuery := mkLogQuery {
  Services : list string;
  Severity : Z;
  SinceTime : Time;
  UntilTime : Time;
  SinceUUID : string;
  Reverse : bool
}.

Definition set_SinceTime (t : Time) (q : LogQuery) : LogQuery :=
  mkLogQuery (Services q) (Severity q) t (UntilTime q) (SinceUUID q) (Reverse q).

Definition set_UntilTime (t : Time) (q : LogQuery) : LogQuery :=
  mkLogQuery (Services q) (Severity q) (SinceTime q) t (SinceUUID q) (Reverse q).

Definition set_SinceUUID (u : string) (q : LogQuery) : LogQuery :=
  mkLogQuery (Services q) (Severity q) (SinceTime q) (UntilTime q) u (Reverse q).

Definition set_Reverse (b : bool) (q : LogQuery) : LogQuery :=
  mkLogQuery (Services q) (Severity q) (SinceTime q) (UntilTime q) (SinceUUID q) b.

End repository.

Import domain repository.

(** ** Store *)

(** Identity of a delivery channel ([chan<- *domain.Event]) and address of a
    query ([*repository.LogQuery]). *)
Definition chan := nat.
Definition loc := nat.

(** A buffered channel: its capacity, the events waiting in its buffer
    (oldest first) and whether it has been closed. *)
Record Channel := mkChannel {
  cap : nat;
  buf : list Event;
  closed : bool
}.

Definition enqueue (e : Event) (ch : Channel) : Channel :=
  mkChannel (cap ch) (buf ch ++ [e]) (closed ch).

(** The watcher's registry together with the objects it points to.
    [subscribers] is the map field of [Watcher] ([None] is the nil map);
    [queries] holds the query objects, shared with the connection handler;
    [chans] holds the channels (a key missing here is the nil channel);
    [finds] records, in call order, the queries handed to
    [LogRepository.Find]. *)
Record State := mkState {
  subscribers : option (gmap chan loc);
  queries : gmap loc LogQuery;
  chans : gmap chan Channel;
  finds : list LogQuery
}.

Definition set_subscribers (m : option (gmap chan loc)) (s : State) : State :=
  mkState m (queries s) (chans s) (finds s).

Definition set_queries (h : gmap loc LogQuery) (s : State) : State :=
  mkState (subscribers s) h (chans s) (finds s).

Definition set_chans (h : gmap chan Channel) (s : State) : State :=
  mkState (subscribers s) (queries s) h (finds s).

Definition record_find (q : LogQuery) (s : State) : State :=
  mkState (subscribers s) (queries s) (chans s) (finds s ++ [q]).

(** The entries of the registry; ranging over a nil map visits nothing. *)
Definition registry (s : State) : gmap chan loc :=
  default ∅ (subscribers s).

(** Go leaves the iteration order of a map unspecified: a [range] visits
    the entries in some order without repetition. *)
Definition range_order (s : State) (order : list (chan * loc)) : Prop :=
  order ≡ₚ map_to_list (registry s).

(** ** Package watch *)

(** [Watcher.Subscribe] (part_000, lines 98-116). *)
Definition Subscribe (c : chan) (q : loc) (s : State)
  : option (option error * State) :=
  qv ← queries s !! q;
  if bool_decide (SinceUUID qv = "") then
    Some (Some (InternalService "SinceUUID not set in subscriber query"), s)
  else
    let m := match subscribers s with
             | None => ∅
             | Some m => m
             end in
    Some (None, set_subscribers (Some (<[c := q]> m)) s).

(** [Watcher.Unsubscribe] (part_000, lines 119-123); [delete] on a nil map
    does nothing. *)
Definition Unsubscribe (c : chan) (s : State) : State :=
  set_subscribers (delete c <$> subscribers s) s.

(** The [select] with a [default] branch of lines 144-147: the send case is
    taken only when the buffer has room; a nil channel is never ready; a
    send on a closed channel panics.  A goroutine blocked in a receive is
    not part of the state: the event that the runtime would hand to it
    directly enters the buffer here and leaves it with the next [receive].
    The state so tells which events reach the reader and in which order,
    while a pass may place one event fewer than the runtime would (and
    none on a channel without buffer, which the program does not
    create). *)
Definition try_send (c : chan) (event : Event) (s : State) : option State :=
  match chans s !! c with
  | None => Some s
  | Some ch =>
      if closed ch then None
      else if bool_decide (length (buf ch) < cap ch)%nat then
        Some (set_chans (<[c := enqueue event ch]> (chans s)) s)
      else Some s
  end.

(** The inner loop of lines 143-148. *)
Fixpoint send_events (c : chan) (events : list Event) (s : State)
  : option State :=
  match events with
  | [] => Some s
  | event :: rest => s' ← try_send c event s; send_events c rest s'
  end.

Section Watch.

(** The storage engine [LogRepository.Find], which is not among the
    sources: a function of the contents of the log directory and of the
    query it is given, which it reads and does not write. *)
Context {Store : Type}.
Variable Find : Store → LogQuery → result (list Event).

(** The body of the loop over the subscribers (lines 132-154) for the
    entry [(c, q)]. *)
Definition notifyOne (st : Store) (c : chan) (q : loc) (s : State)
  : option State :=
  qv ← queries s !! q;
  let qv1 := set_Reverse false qv in
  let s1 := record_find qv1 (set_queries (<[q := qv1]> (queries s)) s) in
  match Find st qv1 with
  | Err _ => Some s1
  | Ok events =>
      s2 ← send_events c events s1;
      if bool_decide (0 < length events)%nat then
        last_event ← events !! (length events - 1)%nat;
        Some (set_queries
                (<[q := set_SinceUUID (UUID last_event) qv1]> (queries s2)) s2)
      else Some s2
  end.

Fixpoint notifyLoop (st : Store) (order : list (chan * loc)) (s : State)
  : option State :=
  match order with
  | [] => Some s
  | (c, q) :: rest => s' ← notifyOne st c q s; notifyLoop st rest s'
  end.

(** [Watcher.notifySubscribers] (lines 125-156), visiting the entries in
    the order [order]; [st] is the log at the time of the write signal. *)
Definition notifySubscribers (st : Store) (order : list (chan * loc))
    (s : State) : option State :=
  notifyLoop st order s.

(** A sequence of notify passes, one per write signal. *)
Fixpoint notifyPasses (passes : list (Store * list (chan * loc)))
    (s : State) : option State :=
  match passes with
  | [] => Some s
  | (st, order) :: rest =>
      s' ← notifySubscribers st order s; notifyPasses rest s'
  end.

End Watch.

(** ** Package handler *)

(** The fields of the anonymous response struct of [HandleRead] that the
    page template receives (read.go, lines 104-120). *)
Record readResponse (FormattedEvent : Type) := mkReadResponse {
  FormattedEvents : list FormattedEvent;
  rspServices : string;
  rspSeverity : Z;
  rspSinceTime : string;
  rspUntilTime : string;
  LastUUID : string;
  rspReverse : bool
}.
Arguments mkReadResponse {FormattedEvent}.
Arguments FormattedEvents {FormattedEvent}.
Arguments rspServices {FormattedEvent}.
Arguments rspSeverity {FormattedEvent}.
Arguments rspSinceTime {FormattedEvent}.
Arguments rspUntilTime {FormattedEvent}.
Arguments LastUUID {FormattedEvent}.
Arguments rspReverse {FormattedEvent}.

(** Lines 89-97 of read.go. *)
Definition resumeCursor (reverse : bool) (events : list Event)
  : option string :=
  if bool_decide (0 < length events)%nat then
    if reverse then UUID <$> events !! 0%nat
    else UUID <$> events !! (length events - 1)%nat
  else Some "".

Section Handler.

Context {Store : Type}.
Variable Find : Store → LogQuery → result (list Event).

(** [Event.Format] and [Time.Format htmlTimeFormat], library code. *)
Context {FormattedEvent : Type}.
Variable Format : Event → FormattedEvent.
Variable formatTime : Time → string.

(** [ReadHandler.HandleRead] (read.go, lines 70-120) up to the response
    struct; [q] is the query stored in the request context, [now1] and
    [now2] are what [time.Now()] reads at lines 76 and 79.  The result is
    the error written back to the caller or the struct handed to the page
    template. *)
Definition HandleRead (st : Store) (now1 now2 : Time) (q : loc) (s : State)
  : option (result (readResponse FormattedEvent) * State) :=
  query0 ← queries s !! q;
  let query1 :=
    if IsZero (SinceTime query0)
    then set_SinceTime (Add now1 (-1 * Hour)) query0 else query0 in
  let query :=
    if IsZero (UntilTime query1)
    then set_UntilTime now2 query1 else query1 in
  let s1 := record_find query (set_queries (<[q := query]> (queries s)) s) in
  match Find st query with
  | Err e => Some (Err e, s1)
  | Ok events =>
      lastUUID ← resumeCursor (Reverse query) events;
      Some (Ok {| FormattedEvents := Format <$> events;
                  rspServices := String.concat ", " (Services query);
                  rspSeverity := repository.Severity query;
                  rspSinceTime := formatTime (SinceTime query);
                  rspUntilTime := formatTime (UntilTime query);
                  LastUUID := lastUUID;
                  rspReverse := Reverse query |}, s1)
  end.

End Handler.

(** ** The storage engine and its contract *)

(** Modelled from the spec: the filter of [LogRepository.Find], which is
    not among the sources.  An event matches a query by its service (an
    empty list of services lets every service through), its severity (at
    least the threshold), its timestamp (from [SinceTime] inclusive to
    [UntilTime] exclusive, zero being unbounded) and its identifier
    (strictly after the cursor when one is set), as in sections 3 and 6 of
    the specification.  Identifiers are assigned in lexicographic order. *)
Definition matches (q : LogQuery) (e : Event) : bool :=
  (bool_decide (Services q = []) || bool_decide (Service e ∈ Services q))
  && bool_decide (repository.Severity q ≤ domain.Severity e)%Z
  && (IsZero (SinceTime q) || bool_decide (SinceTime q ≤ Timestamp e)%Z)
  && (IsZero (UntilTime q) || bool_decide (Timestamp e < UntilTime q)%Z)
  && (bool_decide (SinceUUID q = "") || String.ltb (SinceUUID q) (UUID e)).

(** Modelled from the spec: [LogRepository.Find], which is not among the
    sources.  The log is the list of stored events in write order, or
    [None] when the log directory cannot be read; the matching events come
    back newest first when [Reverse] is set and oldest first otherwise
    (section 6 of the specification). *)
Definition logFind (log : option (list Event)) (q : LogQuery)
  : result (list Event) :=
  match log with
  | None => Err (Wrap "open log directory")
  | Some events =>
      let found := filter (λ e, matches q e) events in
      Ok (if Reverse q then reverse found else found)
  end.

Definition lex_lt (a b : string) : Prop := String.ltb a b = true.

(** The cursor of the query at [q], and the buffer of the channel [c]. *)
Definition cursor (s : State) (q : loc) : option string :=
  SinceUUID <$> queries s !! q.

Definition buffer (s : State) (c : chan) : option (list Event) :=
  buf <$> chans s !! c.

Section Contract.

(** The order in which identifiers are assigned. *)
Variable uuid_lt : relation string.

Definition uuid_le (a b : string) : Prop := a = b ∨ uuid_lt a b.

Definition after (u : string) (e : Event) : Prop := uuid_lt u (UUID e).

Definition oldest_first (events : list Event) : Prop :=
  StronglySorted (λ e1 e2, uuid_lt (UUID e1) (UUID e2)) events.

(** No cursor of the store moves backward from [s] to [s']. *)
Definition cursors_forward (s s' : State) : Prop :=
  ∀ q u, cursor s q = Some u →
    ∃ u', cursor s' q = Some u' ∧ uuid_le u u'.

Context {Store : Type}.
Variable Find : Store → LogQuery → result (list Event).

(** What the registry relies on (section 6): asked for oldest-first
    results, the engine answers in assignment order and only with events
    strictly after the cursor of the query. *)
Definition Find_contract (st : Store) : Prop :=
  ∀ q events, Reverse q = false → Find st q = Ok events →
    oldest_first events ∧ Forall (after (SinceUUID q)) events.

End Contract.

(** ** One iteration of the notify loop in closed form *)

(** What a run of non-blocking sends leaves in a channel: the events that
    fit in the free part of the buffer, in order; the others are gone. *)
Definition room (ch : Channel) : nat := (cap ch - length (buf ch))%nat.

Definition offer (events : list Event) (ch : Channel) : Channel :=
  mkChannel (cap ch) (buf ch ++ take (room ch) events) (closed ch).

Definition advance (events : list Event) (qv : LogQuery) : LogQuery :=
  match last events with
  | Some e => set_SinceUUID (UUID e) qv
  | None => qv
  end.

Section Summary.

Context {Store : Type}.
Variable Find : Store → LogQuery → result (list Event).

(** The batch a pass over the log [st] offers to a subscriber whose query
    is [qv], and the query it leaves behind. *)
Definition found (st : Store) (qv : LogQuery) : list Event :=
  match Find st (set_Reverse false qv) with
  | Ok events => events
  | Err _ => []
  end.

Definition step_query (st : Store) (qv : LogQuery) : LogQuery :=
  advance (found st qv) (set_Reverse false qv).

End Summary.

(** The query at [q] is allocated and asks for oldest first. *)
Definition oldest_first_at (s : State) (q : loc) : Prop :=
  ∃ qv, queries s !! q = Some qv ∧ Reverse qv = false.

(** The query at [q] is allocated and the channel [c] is not closed. *)
Definition alive (s : State) (c : chan) (q : loc) : Prop :=
  is_Some (queries s !! q) ∧
  ∀ ch, chans s !! c = Some ch → closed ch = false.

(** Every registered query is allocated and no registered channel has been
    closed. *)
Definition registry_ok (s : State) : Prop :=
  ∀ c q, registry s !! c = Some q → alive s c q.

(** The query at [q] is registered under the channel [c] and under no
    other channel. *)
Definition subscriber (s : State) (c : chan) (q : loc) : Prop :=
  registry s !! c = Some q ∧ ∀ c', registry s !! c' = Some q → c' = c.

(** ** The historical page in closed form *)

(** The query [HandleRead] hands to the storage engine: the bounds left
    unset default to the hour before [now1] and to [now2]. *)
Definition trailing_window (now1 now2 : Time) (query : LogQuery) : LogQuery :=
  let query1 :=
    if IsZero (SinceTime query)
    then set_SinceTime (Add now1 (-1 * Hour)) query else query in
  if IsZero (UntilTime query1) then set_UntilTime now2 query1 else query1.

(** ** Scenarios *)

(** The log of the end-to-end scenarios of the specification (section 8):
    six events of one service, in write order. *)
Definition event (uuid service : string) (at_time : Time) : Event :=
  mkEvent uuid service 0 at_time "".

Definition scenario_log : list Event :=
  [ event "u1" "lighting" 1; event "u2" "lighting" 2;
    event "u3" "lighting" 3; event "u4" "lighting" 4;
    event "u5" "lighting" 5; event "u6" "lighting" 6 ].

Definition scenario_query (since : string) (reverse : bool) : LogQuery :=
  mkLogQuery ["lighting"] 0 0 0 since reverse.

(** Two subscribers: channel 1 (room for two events) with the query at 10,
    which asks for newest first and resumes after [u3]; channel 2 (room for
    fifty) with the query at 20, which resumes after [u5]. *)
Definition scenario_state : State :=
  {| subscribers := Some {[ 1%nat := 10%nat; 2%nat := 20%nat ]};
     queries := {[ 10%nat := scenario_query "u3" true;
                   20%nat := scenario_query "u5" false;
                   30%nat := scenario_query "" false ]};
     chans := {[ 1%nat := mkChannel 2 [] false;
                 2%nat := mkChannel 50 [] false;
                 3%nat := mkChannel 50 [] false ]};
     finds := [] |}.

Definition scenario_order : list (chan * loc) :=
  map_to_list (registry scenario_state).

(** The same registry when both delivery channels are full. *)
Definition scenario_full : State :=
  set_chans {[ 1%nat := mkChannel 1 [event "u0" "lighting" 0] false;
               2%nat := mkChannel 0 [] false ]} scenario_state.

(** The log after one more write, the state a first pass over
    [scenario_log] leaves, and the state a second pass over the longer log
    leaves after it. *)
Definition scenario_log_later : list Event :=
  scenario_log ++ [event "u7" "lighting" 7].

Definition scenario_after : State :=
  default scenario_state
    (notifySubscribers logFind (Some scenario_log) scenario_order
       scenario_state).

Definition scenario_later : State :=
  default scenario_after
    (notifyPasses logFind [(Some scenario_log_later, scenario_order)]
       scenario_after).

(** ** Package watch: the watch loop *)

(** The one field of [repository.LogRepository] the watcher reads. *)
Record LogRepository := mkLogRepository {
  LogDirectory : string
}.

(** What the [select] of [Start] takes from the two channels of the
    fsnotify watcher, in the order the loop takes them: a file event with
    its [Op] bits (when it leads to a pass, [st] is the log the pass reads
    and [order] the order in which the pass ranges over the registry), the
    event channel found closed, a watch error, the error channel found
    closed. *)
Inductive signal (Store : Type) :=
  | FileEvent (op : N) (st : Store) (order : list (chan * loc))
  | EventsClosed
  | WatchError (cause : string)
  | ErrorsClosed.
Arguments FileEvent {Store} op st order.
Arguments EventsClosed {Store}.
Arguments WatchError {Store} cause.
Arguments ErrorsClosed {Store}.

(** How a loop that waits on channels stands when its inputs run out: it
    has returned, or it is still waiting. *)
Inductive exit :=
  | Returned (err : option error)
  | Waiting.

Section WatchLoop.

Context {Store : Type}.
Variable Find : Store → LogQuery → result (list Event).

(** The bit [fsnotify.Write] of the library, which is not among the
    sources. *)
Variable fsnotify_Write : N.

(** The test of line 67, negated: the event is a write. *)
Definition is_write (op : N) : bool :=
  bool_decide (N.land op fsnotify_Write = fsnotify_Write).

(** The loop of lines 55-84. *)
Fixpoint watchLoop (signals : list (signal Store)) (s : State)
  : option (exit * State) :=
  match signals with
  | [] => Some (Waiting, s)
  | FileEvent op st order :: rest =>
      if is_write op then
        s' ← notifySubscribers Find st order s; watchLoop rest s'
      else watchLoop rest s
  | EventsClosed :: _ => Some (Returned None, s)
  | WatchError cause :: _ => Some (Returned (Some (Wrap cause)), s)
  | ErrorsClosed :: _ => Some (Returned None, s)
  end.

(** [Watcher.Start] (part_000, lines 30-85).  [repo] is the field
    [LogRepository] ([None] when nil); [newWatcher] and [add] are the
    errors of [fsnotify.NewWatcher] and of [watcher.Add], if any.  The
    handle kept in the field [watcher] for [Stop] is not part of the
    state. *)
Definition Start (repo : option LogRepository) (newWatcher add : option string)
    (signals : list (signal Store)) (s : State) : option (exit * State) :=
  match repo with
  | None =>
      Some (Returned (Some (InternalService "LogRepository is not set")), s)
  | Some r =>
      if bool_decide (LogDirectory r = "") then
        Some (Returned (Some (InternalService "Log directory is not set")), s)
      else
        match newWatcher with
        | Some cause => Some (Returned (Some (Wrap cause)), s)
        | None =>
            match add with
            | Some cause => Some (Returned (Some (Wrap cause)), s)
            | None => watchLoop signals s
            end
        end
  end.

(** The passes a run of the loop makes: one per write event, up to the
    first signal that ends the loop. *)
Fixpoint passes_of (signals : list (signal Store))
  : list (Store * list (chan * loc)) :=
  match signals with
  | FileEvent op st order :: rest =>
      if is_write op then (st, order) :: passes_of rest else passes_of rest
  | _ => []
  end.

(** How the loop stands after the signals: what the first ending signal
    makes it return. *)
Fixpoint exit_of (signals : list (signal Store)) : exit :=
  match signals with
  | [] => Waiting
  | FileEvent _ _ _ :: rest => exit_of rest
  | EventsClosed :: _ => Returned None
  | WatchError cause :: _ => Returned (Some (Wrap cause))
  | ErrorsClosed :: _ => Returned None
  end.

End WatchLoop.

(** A signal that ends the loop. *)
Definition ends_loop {Store : Type} (sig : signal Store) : bool :=
  match sig with
  | FileEvent _ _ _ => false
  | _ => true
  end.

(** ** Reading a delivery channel *)

(** The receive [<-events] of the connection handler (read.go, line 180)
    when an event is waiting: the oldest event leaves the buffer. *)
Definition receive (c : chan) (s : State) : option (Event * State) :=
  match chans s !! c with
  | Some (mkChannel n (e :: rest) cl) =>
      Some (e, set_chans (<[c := mkChannel n rest cl]> (chans s)) s)
  | _ => None
  end.

(** What happens around one delivery channel: the watcher makes a whole
    pass, or the reader of the channel takes the oldest waiting event (a
    reader that finds nothing keeps waiting). *)
Inductive activity (Store : Type) :=
  | Pass (st : Store) (order : list (chan * loc))
  | Take.
Arguments Pass {Store} st order.
Arguments Take {Store}.

Section Tail.

Context {Store : Type}.
Variable Find : Store → LogQuery → result (list Event).

(** The events the reader of [c] has taken, oldest first, and the state,
    after the activities. *)
Fixpoint tail (c : chan) (acts : list (activity Store))
    (seen : list Event) (s : State) : option (list Event * State) :=
  match acts with
  | [] => Some (seen, s)
  | Pass st order :: rest =>
      s' ← notifySubscribers Find st order s; tail c rest seen s'
  | Take :: rest =>
      match receive c s with
      | Some (e, s') => tail c rest (seen ++ [e]) s'
      | None => tail c rest seen s
      end
  end.

End Tail.

(** ** Package handler: requests *)

Module handler.

(** [readRequest] (read.go, lines 33-40). *)
Record readRequest := mkReadRequest {
  Services : string;
  Severity : Z;
  SinceTime : string;
  UntilTime : string;
  SinceUUID : string;
  Reverse : bool
}.

End handler.

(** [strings.Replace(s, " ", "", -1)]: every space goes. *)
Fixpoint removeSpaces (s : string) : string :=
  match s with
  | EmptyString => EmptyString
  | String a rest =>
      if Ascii.eqb a " "%char then removeSpaces rest
      else String a (removeSpaces rest)
  end.

(** [strings.Split(s, ",")]: the pieces between the commas; one piece, the
    empty one, for the empty string. *)
Fixpoint splitCommas (s : string) : list string :=
  match s with
  | EmptyString => [EmptyString]
  | String a rest =>
      if Ascii.eqb a ","%char then EmptyString :: splitCommas rest
      else match splitCommas rest with
           | piece :: pieces => String a piece :: pieces
           | [] => [String a EmptyString]
           end
  end.

(** Lines 205-208 of read.go. *)
Definition parseServices (field : string) : list string :=
  if bool_decide (field = "") then []
  else splitCommas (removeSpaces field).

Section Requests.

(** [time.Parse htmlTimeFormat], library code: the time, or the cause of
    the parse error. *)
Variable Parse : string → string + Time.

(** Lines 215-227 of read.go, for one of the two fields. *)
Definition parseBound (field : string) : string + Time :=
  if bool_decide (field = "") then inr 0%Z else Parse field.

(** [parseQuery] (read.go, lines 204-237). *)
Definition parseQuery (body : handler.readRequest) : result LogQuery :=
  let services := parseServices (handler.Services body) in
  let severity := handler.Severity body in
  match parseBound (handler.SinceTime body) with
  | inl cause => Err (Wrap cause)
  | inr sinceTime =>
      match parseBound (handler.UntilTime body) with
      | inl cause => Err (Wrap cause)
      | inr untilTime =>
          Ok (mkLogQuery services severity sinceTime untilTime
                (handler.SinceUUID body) (handler.Reverse body))
      end
  end.

(** [ReadHandler.DecodeBody] (read.go, lines 42-68).  [decoded] is what
    [request.Decode] makes of the request, [q] the address of the query
    that [parseQuery] allocates, [next] the handler that finds the query in
    the request context.  The result is the error written back to the
    caller or what [next] did.  The metadata map only feeds the log. *)
Definition DecodeBody {A : Type} (decoded : result handler.readRequest)
    (q : loc) (next : loc → State → option (A * State)) (s : State)
  : option (result A * State) :=
  match decoded with
  | Err e => Some (Err e, s)
  | Ok body =>
      match parseQuery body with
      | Err e => Some (Err e, s)
      | Ok query =>
          '(a, s') ← next q (set_queries (<[q := query]> (queries s)) s);
          Some (Ok a, s')
      end
  end.

End Requests.

(** ** Package handler: the streaming connection *)

(** What the [select] of the delivery loop takes (read.go, lines 179-200):
    an event from the channel, with whether [json.Marshal] and
    [ws.WriteMessage] then succeed; the channel found closed; the end of
    the read loop. *)
Inductive selected :=
  | Received (event : Event) (marshal_ok write_ok : bool)
  | ChannelClosed
  | Done.

Section Streaming.

Context {FormattedEvent : Type}.
Variable Format : Event → FormattedEvent.

(** The delivery loop of lines 178-201: how it stands after the inputs and
    the events written to the connection, oldest first. *)
Fixpoint deliver (inputs : list selected) (written : list FormattedEvent)
  : exit * list FormattedEvent :=
  match inputs with
  | [] => (Waiting, written)
  | Received event marshal_ok write_ok :: rest =>
      if marshal_ok then
        if write_ok then deliver rest (written ++ [Format event])
        else (Returned None, written)
      else deliver rest written
  | ChannelClosed :: _ => (Returned None, written)
  | Done :: _ => (Returned None, written)
  end.

(** [ReadHandler.HandleWebSocket] (read.go, lines 146-202).  [upgraded]
    tells whether the upgrade succeeds, [events] is the channel that [make]
    returns, [q] the query of the request context, [inputs] what the
    delivery loop takes, and [meanwhile] what the rest of the program does
    to the shared state between [Subscribe] and the deferred
    [Unsubscribe].  The handler has no result; the model returns how it
    stands and what it wrote. *)
Definition HandleWebSocket (upgraded : bool) (events : chan) (q : loc)
    (inputs : list selected) (meanwhile : State → State) (s : State)
  : option (exit * list FormattedEvent * State) :=
  if upgraded then
    let s0 := set_chans (<[events := mkChannel 50 [] false]> (chans s)) s in
    '(err, s1) ← Subscribe events q s0;
    match err with
    | Some _ => Some (Returned None, [], s1)
    | None =>
        match deliver inputs [] with
        | (Returned r, written) =>
            Some (Returned r, written, Unsubscribe events (meanwhile s1))
        | (Waiting, written) => Some (Waiting, written, meanwhile s1)
        end
    end
  else Some (Returned None, [], s).

End Streaming.

(** ** Relations between states *)

(** The channel [ch'] is [ch] with further events behind those that were
    waiting: same capacity, same closed flag. *)
Definition grows (ch ch' : Channel) : Prop :=
  cap ch' = cap ch ∧ closed ch' = closed ch ∧
  ∃ added, buf ch' = buf ch ++ added.

(** The two queries select the same events, cursor and direction apart. *)
Definition same_filter (qv qv' : LogQuery) : Prop :=
  Services qv' = Services qv ∧
  repository.Severity qv' = repository.Severity qv ∧
  SinceTime qv' = SinceTime qv ∧ UntilTime qv' = UntilTime qv.

(** A pass of the activities reads a log on which the storage engine
    meets its contract, and ranges over the registry of [s]. *)
Definition pass_ok {Store : Type} (uuid_lt : relation string)
    (Find : Store → LogQuery → result (list Event)) (s : State)
    (a : activity Store) : Prop :=
  match a with
  | Pass st order => Find_contract uuid_lt Find st ∧ range_order s order
  | Take => True
  end.

(** The events the reader of [c] has taken and those still waiting are in
    assignment order, all after the identifier [u0] and none after the
    cursor of the query at [q]. *)
Definition in_order (uuid_lt : relation string) (u0 : string) (s : State)
    (c : chan) (q : loc) (seen : list Event) : Prop :=
  ∃ qv ch, queries s !! q = Some qv ∧ chans s !! c = Some ch ∧
    uuid_le uuid_lt u0 (SinceUUID qv) ∧
    oldest_first uuid_lt (seen ++ buf ch) ∧
    Forall (λ e, uuid_lt u0 (UUID e) ∧
                 uuid_le uuid_lt (UUID e) (SinceUUID qv)) (seen ++ buf ch).

(** The byte [a] occurs in the string. *)
Fixpoint occurs (a : ascii) (s : string) : bool :=
  match s with
  | EmptyString => false
  | String b rest => Ascii.eqb a b || occurs a rest
  end.

(** What the storage engine owes the historical page (section 6): the
    events come newest first when [Reverse] is set and oldest first
    otherwise. *)
Definition page_contract {Store : Type} (uuid_lt : relation string)
    (Find : Store → LogQuery → result (list Event)) (st : Store) : Prop :=
  ∀ q events, Find st q = Ok events →
    oldest_first uuid_lt (if Reverse q then reverse events else events).

(** The events the delivery loop is handed by its inputs. *)
Fixpoint received_events (inputs : list selected) : list Event :=
  match inputs with
  | [] => []
  | Received event _ _ :: rest => event :: received_events rest
  | _ :: rest => received_events rest
  end.

(** An input after which the delivery loop returns: a failed write, the
    channel found closed, the end of the read loop. *)
Definition ends_delivery (input : selected) : bool :=
  match input with
  | Received _ true false => true
  | Received _ _ _ => false
  | ChannelClosed => true
  | Done => true
  end.

(** ** Further scenarios *)

(** The scenario when viewers are about to open live tails on channel 3:
    two more queries, at 40 resuming after [u2] and at 50 resuming after
    [u6], neither of them registered. *)
Definition scenario_viewer : State :=
  set_queries
    (<[40%nat := scenario_query "u2" false]>
       (<[50%nat := scenario_query "u6" true]> (queries scenario_state)))
    scenario_state.

(** What the watch loop takes while the log grows, [fsnotify.Write] being
    the bit 2: a change of mode, a write, a write together with a change of
    mode, the closed event channel, and a write that comes too late. *)
Definition scenario_signals : list (signal (option (list Event))) :=
  [ FileEvent 16 (Some scenario_log) scenario_order;
    FileEvent 2 (Some scenario_log) scenario_order;
    FileEvent 18 (Some scenario_log_later) scenario_order;
    EventsClosed;
    FileEvent 2 (Some scenario_log_later) scenario_order ].

(** Passes of the watcher and receives of the reader of a channel. *)
Definition scenario_activities : list (activity (option (list Event))) :=
  [ Pass (Some scenario_log) scenario_order; Take;
    Pass (Some scenario_log_later) scenario_order; Take; Take; Take ].

(** The request of a first-time viewer. *)
Definition scenario_request : handler.readRequest :=
  handler.mkReadRequest "lighting, heating" 0 "" "" "" false.

(** A parser of time bounds that knows one text. *)
Definition scenario_Parse (text : string) : string + Time :=
  if bool_decide (text = "0001-01-01T01:00") then inr 3600000000000%Z
  else inl "cannot parse time".

(** What a delivery loop takes: two events, the second of which cannot be
    marshalled, a third whose write fails, and a fourth. *)
Definition scenario_inputs : list selected :=
  [ Received (event "u4" "lighting" 4) true true;
    Received (event "u5" "lighting" 5) false true;
    Received (event "u6" "lighting" 6) true false;
    Received (event "u7" "lighting" 7) true true ].




(** The same for a live tail that resumes after [u6], the cursor of the
    page of the query at 10, with a pass over the longer log. *)
Definition scenario_resumed : State :=
  set_subscribers (Some (<[3%nat := 50%nat]> (registry scenario_viewer)))
    scenario_viewer.

Definition scenario_resumed_order : list (chan * loc) :=
  map_to_list (registry scenario_resumed).

Definition scenario_resumed_after : State :=
  default scenario_resumed
    (notifySubscribers logFind (Some scenario_log_later)
       scenario_resumed_order scenario_resumed).

(** What the reader of channel 1 has taken after [scenario_activities],
    and the state then. *)
Definition scenario_tail : list Event * State :=
  default ([], scenario_state)
    (tail logFind 1%nat scenario_activities [] scenario_state).

(** Two channels subscribed with one and the same query object. *)
Definition scenario_shared : State :=
  set_subscribers (Some {[ 1%nat := 10%nat; 2%nat := 10%nat ]})
    scenario_state.

Definition scenario_shared_order : list (chan * loc) :=
  map_to_list (registry scenario_shared).

Definition scenario_shared_after : State :=
  default scenario_shared
    (notifySubscribers logFind (Some scenario_log) scenario_shared_order
       scenario_shared).




(** The reader of channel 1 and the watcher after the first pass over
    [scenario_log]: the reader takes an event, the log grows and is read
    again, the reader takes what is left. *)
Definition scenario_resumption : list (activity (option (list Event))) :=
  [ Take; Pass (Some scenario_log_later) scenario_order; Take; Take ].

Definition scenario_resumed_tail : list Event * State :=
  default ([], scenario_after)
    (tail logFind 1%nat scenario_resumption [] scenario_after).

(** * Properties *)

(** ** Records and setters *)

Lemma set_chans_id s : set_chans (chans s) s = s.
Proof. by destruct s. Qed.

Lemma offer_nil ch : offer [] ch = ch.
Proof.
  destruct ch as [n b cl]. unfold offer; simpl.
  by rewrite take_nil, app_nil_r.
Qed.

Lemma room_enqueue e ch :
  (length (buf ch) < cap ch)%nat → S (room (enqueue e ch)) = room ch.
Proof. unfold room; simpl. rewrite length_app; simpl. lia. Qed.

Lemma offer_cons_room e events ch :
  (length (buf ch) < cap ch)%nat →
  offer events (enqueue e ch) = offer (e :: events) ch.
Proof.
  intros Hlt. unfold offer. rewrite <- (room_enqueue e ch Hlt). simpl.
  by rewrite <- app_assoc.
Qed.

Lemma offer_full events ch :
  (cap ch ≤ length (buf ch))%nat → offer events ch = ch.
Proof.
  intros Hfull. destruct ch as [n b cl]; unfold offer, room; simpl in *.
  replace (n - length b)%nat with 0%nat by lia.
  by rewrite take_0, app_nil_r.
Qed.

(** ** Non-blocking sends *)

Lemma try_send_nil_chan c e s :
  chans s !! c = None → try_send c e s = Some s.
Proof. intros H. unfold try_send. by rewrite H. Qed.

Lemma try_send_room c e s ch :
  chans s !! c = Some ch → closed ch = false →
  (length (buf ch) < cap ch)%nat →
  try_send c e s = Some (set_chans (<[c := enqueue e ch]> (chans s)) s).
Proof.
  intros H Hcl Hlt. unfold try_send. rewrite H, Hcl.
  by rewrite bool_decide_eq_true_2.
Qed.

Lemma try_send_full c e s ch :
  chans s !! c = Some ch → closed ch = false →
  (cap ch ≤ length (buf ch))%nat →
  try_send c e s = Some s.
Proof.
  intros H Hcl Hfull. unfold try_send. rewrite H, Hcl.
  rewrite bool_decide_eq_false_2; [done | lia].
Qed.

Lemma try_send_closed c e s ch :
  chans s !! c = Some ch → closed ch = true → try_send c e s = None.
Proof. intros H Hcl. unfold try_send. by rewrite H, Hcl. Qed.

Lemma try_send_total s c e :
  (∀ ch, chans s !! c = Some ch → closed ch = false) →
  is_Some (try_send c e s).
Proof.
  intros Hopen. unfold try_send.
  destruct (chans s !! c) as [ch|]; [|done].
  rewrite (Hopen ch eq_refl). by case_bool_decide.
Qed.

Lemma send_events_nil_chan c events s :
  chans s !! c = None → send_events c events s = Some s.
Proof.
  intros H. induction events as [|e events IH]; [done |].
  simpl. by rewrite try_send_nil_chan.
Qed.

Lemma send_events_closed c e events s ch :
  chans s !! c = Some ch → closed ch = true →
  send_events c (e :: events) s = None.
Proof. intros H Hcl. simpl. by erewrite try_send_closed. Qed.

(** A run of sends on an open channel fills the free part of the buffer
    and discards the rest. *)
Lemma send_events_open c events s ch :
  chans s !! c = Some ch → closed ch = false →
  send_events c events s
  = Some (set_chans (<[c := offer events ch]> (chans s)) s).
Proof.
  revert s ch. induction events as [|e events IH]; intros s ch H Hcl.
  - simpl. by rewrite offer_nil, insert_id, set_chans_id.
  - simpl. destruct (decide (length (buf ch) < cap ch)%nat) as [Hlt|Hge].
    + rewrite (try_send_room c e s ch) by done. simpl.
      rewrite (IH _ (enqueue e ch)); simpl.
      * rewrite offer_cons_room by done.
        unfold set_chans; simpl. by rewrite insert_insert_eq.
      * apply lookup_insert_eq.
      * done.
    + rewrite (try_send_full c e s ch) by (done || lia). simpl.
      rewrite (IH s ch) by done.
      by rewrite !offer_full by lia.
Qed.

(** In every case a run of sends touches no other channel, no query and not
    the registry, and on the channel itself it has the effect of [offer]. *)
Lemma send_events_spec c events s s' :
  send_events c events s = Some s' →
  subscribers s' = subscribers s ∧ queries s' = queries s ∧
  finds s' = finds s ∧
  chans s' !! c = offer events <$> chans s !! c ∧
  ∀ c', c' ≠ c → chans s' !! c' = chans s !! c'.
Proof.
  intros Hrun. destruct (chans s !! c) as [ch|] eqn:Hc.
  - destruct (closed ch) eqn:Hcl.
    + destruct events as [|e events].
      * simpl in Hrun. simplify_eq. rewrite Hc. simpl. by rewrite offer_nil.
      * by rewrite (send_events_closed c e events s ch) in Hrun.
    + rewrite (send_events_open c events s ch) in Hrun by done.
      simplify_eq. simpl. rewrite lookup_insert_eq.
      repeat split; try done. intros c' Hne. by rewrite lookup_insert_ne.
  - rewrite send_events_nil_chan in Hrun by done. simplify_eq.
    by rewrite Hc.
Qed.

(** ** One subscriber, one pass *)

Section WatchFacts.

Context {Store : Type}.
Variable Find : Store → LogQuery → result (list Event).

Implicit Types (st : Store) (s : State) (c : chan) (q : loc).
Implicit Types (order : list (chan * loc)) (qv : LogQuery).

Lemma fmap_offer_nil (o : option Channel) : offer [] <$> o = o.
Proof. destruct o as [ch|]; simpl; [by rewrite offer_nil | done]. Qed.

Lemma lookup_last_index (events : list Event) :
  events !! (length events - 1)%nat = last events.
Proof. by rewrite last_lookup, Nat.sub_1_r. Qed.

(** The effect of one iteration of the loop, when it does not panic. *)
Lemma notifyOne_spec st c q s s' :
  notifyOne Find st c q s = Some s' →
  ∃ qv, queries s !! q = Some qv ∧
    subscribers s' = subscribers s ∧
    finds s' = finds s ++ [set_Reverse false qv] ∧
    queries s' = <[q := step_query Find st qv]> (queries s) ∧
    chans s' !! c = offer (found Find st qv) <$> chans s !! c ∧
    ∀ c', c' ≠ c → chans s' !! c' = chans s !! c'.
Proof.
  unfold notifyOne. destruct (queries s !! q) as [qv|] eqn:Hq; [|done].
  simpl. intros Hrun. exists qv. split; [done |].
  unfold step_query, found.
  destruct (Find st (set_Reverse false qv)) as [events|e] eqn:Hfind.
  - destruct (send_events c events _) as [s2|] eqn:Hsend; [|done].
    apply send_events_spec in Hsend as (Hsub & Hqs & Hfs & Hc & Hframe).
    simpl in *. case_bool_decide as Hlen.
    + rewrite lookup_last_index in Hrun.
      destruct (last events) as [e|] eqn:Hlast; [|done].
      simpl in Hrun. simplify_eq. simpl. unfold advance. rewrite Hlast.
      rewrite Hqs, insert_insert_eq. done.
    + simplify_eq. destruct events as [|e events]; [|simpl in Hlen; lia].
      unfold advance; simpl. done.
  - simplify_eq. simpl. rewrite fmap_offer_nil. done.
Qed.

(** An iteration panics only on an unallocated query or a closed
    channel. *)
Lemma notifyOne_total st c q s :
  is_Some (queries s !! q) →
  (∀ ch, chans s !! c = Some ch → closed ch = false) →
  is_Some (notifyOne Find st c q s).
Proof.
  intros [qv Hq] Hopen. unfold notifyOne. rewrite Hq. simpl.
  destruct (Find st (set_Reverse false qv)) as [events|e]; [|done].
  set (s1 := record_find _ _).
  assert (∃ s2, send_events c events s1 = Some s2) as [s2 Hs2].
  { destruct (chans s1 !! c) as [ch|] eqn:Hc.
    - eexists. apply (send_events_open c events s1 ch); [done |].
      apply Hopen. done.
    - eexists. by apply send_events_nil_chan. }
  rewrite Hs2. simpl. case_bool_decide as Hlen; [|done].
  destruct (lookup_lt_is_Some_2 events (length events - 1)%nat) as [e He];
    [lia |].
  rewrite He. done.
Qed.

Lemma notifyLoop_cons st c q order s :
  notifyLoop Find st ((c, q) :: order) s
  = notifyOne Find st c q s ≫= notifyLoop Find st order.
Proof. done. Qed.

Lemma notifyLoop_subscribers st order s s' :
  notifyLoop Find st order s = Some s' → subscribers s' = subscribers s.
Proof.
  revert s. induction order as [|[c q] order IH]; intros s Hrun.
  - simpl in Hrun. by simplify_eq.
  - rewrite notifyLoop_cons in Hrun.
    destruct (notifyOne Find st c q s) as [s1|] eqn:Hone; [|done].
    apply notifyOne_spec in Hone as (qv & _ & Hsub & _).
    simpl in Hrun. rewrite (IH _ Hrun). done.
Qed.

(** A pass leaves alone the queries and the channels of entries it does
    not visit. *)
Lemma notifyLoop_frame_query st order s s' q :
  q ∉ order.*2 → notifyLoop Find st order s = Some s' →
  queries s' !! q = queries s !! q.
Proof.
  revert s. induction order as [|[c0 q0] order IH]; intros s Hnotin Hrun.
  - simpl in Hrun. by simplify_eq.
  - rewrite notifyLoop_cons in Hrun.
    destruct (notifyOne Find st c0 q0 s) as [s1|] eqn:Hone; [|done].
    apply notifyOne_spec in Hone as (qv & _ & _ & _ & Hqs & _).
    simpl in Hrun, Hnotin. apply not_elem_of_cons in Hnotin as [Hne Hnotin].
    rewrite (IH _ Hnotin Hrun), Hqs. by rewrite lookup_insert_ne.
Qed.

Lemma notifyLoop_frame_chan st order s s' c :
  c ∉ order.*1 → notifyLoop Find st order s = Some s' →
  chans s' !! c = chans s !! c.
Proof.
  revert s. induction order as [|[c0 q0] order IH]; intros s Hnotin Hrun.
  - simpl in Hrun. by simplify_eq.
  - rewrite notifyLoop_cons in Hrun.
    destruct (notifyOne Find st c0 q0 s) as [s1|] eqn:Hone; [|done].
    apply notifyOne_spec in Hone as (qv & _ & _ & _ & _ & _ & Hframe).
    simpl in Hrun, Hnotin. apply not_elem_of_cons in Hnotin as [Hne Hnotin].
    rewrite (IH _ Hnotin Hrun). by apply Hframe.
Qed.

(** What a pass does to an entry that the order lists once and whose
    query no other entry shares. *)
Lemma notifyLoop_entry st order s s' c q :
  NoDup order.*1 → (c, q) ∈ order →
  (∀ c', (c', q) ∈ order → c' = c) →
  notifyLoop Find st order s = Some s' →
  ∃ qv, queries s !! q = Some qv ∧
    queries s' !! q = Some (step_query Find st qv) ∧
    chans s' !! c = offer (found Find st qv) <$> chans s !! c.
Proof.
  revert s. induction order as [|[c0 q0] order IH];
    intros s Hnodup Hin Honly Hrun.
  - by apply elem_of_nil in Hin.
  - rewrite notifyLoop_cons in Hrun.
    destruct (notifyOne Find st c0 q0 s) as [s1|] eqn:Hone; [|done].
    apply notifyOne_spec in Hone
      as (qv0 & Hq0 & _ & _ & Hqs & Hc0 & Hframe).
    simpl in Hrun, Hnodup. apply NoDup_cons in Hnodup as [Hfresh Hnodup].
    apply elem_of_cons in Hin as [Heq|Hin].
    + injection Heq as Hc Hq. subst c0 q0.
      exists qv0. split; [done |].
      assert (q ∉ order.*2) as Hq.
      { intros Hq. apply list_elem_of_fmap in Hq as ([c' q'] & Heq & Hq).
        simpl in Heq. subst q'.
        assert (c' = c) as -> by (apply Honly; by right).
        apply Hfresh. apply list_elem_of_fmap. by exists (c, q). }
      rewrite (notifyLoop_frame_query _ _ _ _ _ Hq Hrun).
      rewrite (notifyLoop_frame_chan _ _ _ _ _ Hfresh Hrun).
      rewrite Hqs, lookup_insert_eq. done.
    + assert (c0 ≠ c) as Hc.
      { intros ->. apply Hfresh. apply list_elem_of_fmap.
        by exists (c, q). }
      assert (q0 ≠ q) as Hq.
      { intros ->. apply Hc. apply Honly. by left. }
      destruct (IH s1 Hnodup Hin) as (qv & Hqv & Hq' & Hc'); [|done|].
      { intros c' Hc'. apply Honly. by right. }
      exists qv. rewrite Hqs, lookup_insert_ne in Hqv by done.
      rewrite Hframe in Hc' by done. done.
Qed.

End WatchFacts.

(** ** The registry and the order of a pass *)

Lemma range_order_NoDup s order : range_order s order → NoDup order.*1.
Proof.
  unfold range_order. intros ->. apply NoDup_fst_map_to_list.
Qed.

Lemma range_order_elem s order c q :
  range_order s order → (c, q) ∈ order ↔ registry s !! c = Some q.
Proof.
  unfold range_order. intros ->. apply elem_of_map_to_list.
Qed.

Lemma range_order_fresh s order c :
  range_order s order → registry s !! c = None → c ∉ order.*1.
Proof.
  intros Hord Hnone Hin.
  apply list_elem_of_fmap in Hin as ([c' q] & Heq & Hin). simpl in Heq.
  subst c'. apply (range_order_elem s order c q Hord) in Hin. congruence.
Qed.

Lemma range_order_same_registry s s' order :
  subscribers s' = subscribers s → range_order s order → range_order s' order.
Proof. unfold range_order, registry. by intros ->. Qed.

Lemma scenario_order_range : range_order scenario_state scenario_order.
Proof. unfold range_order, scenario_order. done. Qed.

Lemma scenario_full_range : range_order scenario_full scenario_order.
Proof. unfold range_order, scenario_order. done. Qed.

(** ** Subscribe and Unsubscribe *)

Section Registry.

Context {Store : Type}.
Variable Find : Store → LogQuery → result (list Event).

(** C1, as the code has it.  For every query with an empty [SinceUUID],
    [Subscribe] returns the internal-service error
    "SinceUUID not set in subscriber query" and leaves the registry (and
    the rest of the state) as it was; if the channel had no entry before
    the call, a following notify pass leaves the channel untouched:
    nothing is delivered to it. *)
Theorem Subscribe_rejects_empty_cursor c q s qv :
  queries s !! q = Some qv → SinceUUID qv = "" →
  Subscribe c q s
    = Some (Some (InternalService "SinceUUID not set in subscriber query"), s)
  ∧ (registry s !! c = None →
     ∀ st order s', range_order s order →
       notifySubscribers Find st order s = Some s' →
       chans s' !! c = chans s !! c).
Proof.
  intros Hq Hempty. split.
  - unfold Subscribe. rewrite Hq. simpl.
    by rewrite bool_decide_eq_true_2.
  - intros Hfresh st order s' Hord Hpass.
    apply (notifyLoop_frame_chan Find st order); [|done].
    by apply (range_order_fresh s).
Qed.

(** C9.  [Unsubscribe] removes the entry of the channel when there is one
    and changes nothing otherwise; a second call changes nothing; the
    channels (their buffers and closed flags) and the queries are never
    touched; there is no error to return. *)
Theorem Unsubscribe_idempotent c s :
  Unsubscribe c (Unsubscribe c s) = Unsubscribe c s ∧
  Unsubscribe c s
    = (if decide (is_Some (registry s !! c))
       then set_subscribers (Some (delete c (registry s))) s
       else s) ∧
  registry (Unsubscribe c s) = delete c (registry s) ∧
  chans (Unsubscribe c s) = chans s ∧
  queries (Unsubscribe c s) = queries s.
Proof.
  destruct s as [[m|] qs cs fs]; unfold Unsubscribe, registry; simpl.
  - repeat split; try done.
    + unfold set_subscribers; simpl. by rewrite delete_delete_eq.
    + case_decide as Hc; [done |].
      unfold set_subscribers; simpl. rewrite delete_id; [done |].
      by apply eq_None_not_Some.
  - repeat split; done.
Qed.

End Registry.

(** C1, as the specification words it, fails twice.  On the query at 30
    of the scenario, whose cursor is empty, [Subscribe] does not return an
    invalid-argument error: what it returns is built with
    [errors.InternalService].  And when the channel already has an entry
    (channel 1, registered with the query at 10), the rejected call leaves
    that entry in place and the following pass delivers two events to the
    channel. *)
Lemma Subscribe_empty_cursor_not_invalid_argument :
  queries scenario_state !! 30%nat = Some (scenario_query "" false) ∧
  SinceUUID (scenario_query "" false) = "" ∧
  Subscribe 3%nat 30%nat scenario_state
    = Some (Some (InternalService "SinceUUID not set in subscriber query"),
            scenario_state) ∧
  (¬ ∃ msg s', Subscribe 3%nat 30%nat scenario_state
               = Some (Some (InvalidArgument msg), s')) ∧
  Subscribe 1%nat 30%nat scenario_state
    = Some (Some (InternalService "SinceUUID not set in subscriber query"),
            scenario_state) ∧
  notifySubscribers logFind (Some scenario_log) scenario_order scenario_state
    = Some scenario_after ∧
  buffer scenario_state 1%nat = Some [] ∧
  buffer scenario_after 1%nat
    = Some [event "u4" "lighting" 4; event "u5" "lighting" 5].
Proof.
  split; [done |]. split; [done |]. split; [done |]. split.
  - intros (msg & s' & H). vm_compute in H. discriminate H.
  - split; [done |]. split; [by vm_compute |]. split; by vm_compute.
Qed.

Lemma Subscribe_rejects_empty_cursor_witness :
  Subscribe 3%nat 30%nat scenario_state
    = Some (Some (InternalService "SinceUUID not set in subscriber query"),
            scenario_state)
  ∧ chans scenario_after !! 3%nat = chans scenario_state !! 3%nat.
Proof.
  destruct (Subscribe_rejects_empty_cursor logFind 3%nat 30%nat
              scenario_state (scenario_query "" false))
    as [Herr Hquiet].
  - reflexivity.
  - reflexivity.
  - split; [exact Herr |].
    apply (Hquiet eq_refl (Some scenario_log) scenario_order scenario_after).
    + unfold range_order, scenario_order. reflexivity.
    + vm_compute. reflexivity.
Defined.

(** ** A notify pass: direction, errors, full channels *)

Section Pass.

Context {Store : Type}.
Variable Find : Store → LogQuery → result (list Event).

Implicit Types (st : Store) (s : State) (c : chan) (q : loc).
Implicit Types (order : list (chan * loc)) (qv : LogQuery).

Lemma Reverse_advance events qv : Reverse (advance events qv) = Reverse qv.
Proof. unfold advance. by destruct (last events). Qed.

Lemma Reverse_step_query st qv : Reverse (step_query Find st qv) = false.
Proof. unfold step_query. by rewrite Reverse_advance. Qed.

Lemma notifyOne_normalizes st c q s s' :
  notifyOne Find st c q s = Some s' → oldest_first_at s' q.
Proof.
  intros Hone. apply notifyOne_spec in Hone as (qv & _ & _ & _ & Hqs & _).
  exists (step_query Find st qv). rewrite Hqs, lookup_insert_eq.
  split; [done | apply Reverse_step_query].
Qed.

Lemma notifyOne_keeps_normal st c0 q0 s s' q :
  notifyOne Find st c0 q0 s = Some s' →
  oldest_first_at s q → oldest_first_at s' q.
Proof.
  intros Hone (qv & Hq & Hrev).
  destruct (decide (q0 = q)) as [->|Hne].
  - by apply (notifyOne_normalizes st c0 q s).
  - apply notifyOne_spec in Hone as (qv0 & _ & _ & _ & Hqs & _).
    exists qv. by rewrite Hqs, lookup_insert_ne.
Qed.

Lemma notifyLoop_keeps_normal st order s s' q :
  notifyLoop Find st order s = Some s' →
  oldest_first_at s q → oldest_first_at s' q.
Proof.
  revert s. induction order as [|[c0 q0] order IH]; intros s Hrun Hq.
  - simpl in Hrun. by simplify_eq.
  - rewrite notifyLoop_cons in Hrun.
    destruct (notifyOne Find st c0 q0 s) as [s1|] eqn:Hone; [|done].
    simpl in Hrun. apply (IH s1 Hrun).
    by apply (notifyOne_keeps_normal st c0 q0 s).
Qed.

Lemma notifyLoop_normalizes st order s s' c q :
  notifyLoop Find st order s = Some s' → (c, q) ∈ order →
  oldest_first_at s' q.
Proof.
  revert s. induction order as [|[c0 q0] order IH]; intros s Hrun Hin.
  - by apply elem_of_nil in Hin.
  - rewrite notifyLoop_cons in Hrun.
    destruct (notifyOne Find st c0 q0 s) as [s1|] eqn:Hone; [|done].
    simpl in Hrun. apply elem_of_cons in Hin as [Heq|Hin].
    + injection Heq as -> ->.
      apply (notifyLoop_keeps_normal st order s1); [done |].
      by apply (notifyOne_normalizes st c0 q0 s).
    + by apply (IH s1).
Qed.

(** The queries a pass hands to the storage engine: one per entry, each
    already turned to oldest first. *)
Lemma notifyLoop_finds st order s s' :
  notifyLoop Find st order s = Some s' →
  ∃ issued, finds s' = finds s ++ issued ∧
    length issued = length order ∧
    Forall (λ qv, Reverse qv = false) issued.
Proof.
  revert s. induction order as [|[c0 q0] order IH]; intros s Hrun.
  - simpl in Hrun. simplify_eq. exists []. by rewrite app_nil_r.
  - rewrite notifyLoop_cons in Hrun.
    destruct (notifyOne Find st c0 q0 s) as [s1|] eqn:Hone; [|done].
    apply notifyOne_spec in Hone as (qv & _ & _ & Hfs & _).
    destruct (IH s1 Hrun) as (issued & Hfs' & Hlen & Hall).
    exists (set_Reverse false qv :: issued).
    rewrite Hfs', Hfs, <- app_assoc. simpl.
    repeat split; [by rewrite Hlen |]. by constructor.
Qed.

(** C6.  After a notify pass every subscriber of the registry has
    [Reverse = false], whatever it was at subscribe time, and every query
    the pass handed to the storage engine already had [Reverse = false]. *)
Theorem notify_normalizes_direction st order s s' :
  range_order s order → notifySubscribers Find st order s = Some s' →
  (∀ c q, registry s' !! c = Some q →
     ∃ qv', queries s' !! q = Some qv' ∧ Reverse qv' = false) ∧
  ∃ issued, finds s' = finds s ++ issued ∧
    length issued = length order ∧
    Forall (λ qv, Reverse qv = false) issued.
Proof.
  intros Hord Hpass. split.
  - intros c q Hreg.
    apply (notifyLoop_normalizes st order s s' c); [done |].
    apply (range_order_elem s order c q Hord).
    unfold registry in *.
    by rewrite <- (notifyLoop_subscribers Find st order s s' Hpass).
  - by apply (notifyLoop_finds st order s).
Qed.

(** C5.  When the storage query of a subscriber fails, the subscriber is
    still registered after the pass, its query differs from what it was
    only in [Reverse], its cursor and its channel are as they were, and the
    loop goes on with the entries that follow it. *)
Theorem notify_query_error_keeps_subscriber st order s s' c q qv e :
  range_order s order → subscriber s c q →
  queries s !! q = Some qv → Find st (set_Reverse false qv) = Err e →
  notifySubscribers Find st order s = Some s' →
  registry s' !! c = Some q ∧
  queries s' !! q = Some (set_Reverse false qv) ∧
  cursor s' q = Some (SinceUUID qv) ∧
  chans s' !! c = chans s !! c ∧
  ∀ rest, notifyLoop Find st ((c, q) :: rest) s
          = notifyLoop Find st rest
              (record_find (set_Reverse false qv)
                 (set_queries (<[q := set_Reverse false qv]> (queries s)) s)).
Proof.
  intros Hord [Hreg Honly] Hq Hfind Hpass.
  destruct (notifyLoop_entry Find st order s s' c q)
    as (qv' & Hq' & Hqs' & Hc'); try done.
  { by apply (range_order_NoDup s). }
  { by apply (range_order_elem s order c q Hord). }
  { intros c' Hin. apply Honly.
    by apply (range_order_elem s order c' q Hord). }
  rewrite Hq in Hq'. injection Hq' as <-.
  unfold step_query, found in Hqs', Hc'. rewrite Hfind in Hqs', Hc'.
  repeat split.
  - unfold registry.
    by rewrite (notifyLoop_subscribers Find st order s s' Hpass).
  - done.
  - unfold cursor. rewrite Hqs'. done.
  - by rewrite Hc', fmap_offer_nil.
  - intros rest. rewrite notifyLoop_cons. unfold notifyOne.
    rewrite Hq. simpl. by rewrite Hfind.
Qed.

Lemma notifyOne_alive st c0 q0 s s' c q :
  notifyOne Find st c0 q0 s = Some s' → alive s c q → alive s' c q.
Proof.
  intros Hone [Hq Hopen].
  apply notifyOne_spec in Hone as (qv & _ & _ & _ & Hqs & Hc & Hframe).
  split.
  - rewrite Hqs. destruct (decide (q0 = q)) as [->|Hne].
    + by rewrite lookup_insert_eq.
    + by rewrite lookup_insert_ne.
  - intros ch Hch. destruct (decide (c = c0)) as [->|Hne].
    + rewrite Hc in Hch. destruct (chans s !! c0) as [ch0|] eqn:Hc0; [|done].
      simpl in Hch. injection Hch as <-. simpl. by apply Hopen.
    + rewrite Hframe in Hch by done. by apply Hopen.
Qed.

Lemma notifyLoop_total st order s :
  (∀ c q, (c, q) ∈ order → alive s c q) →
  is_Some (notifyLoop Find st order s).
Proof.
  revert s. induction order as [|[c0 q0] order IH]; intros s Halive.
  - by eexists.
  - rewrite notifyLoop_cons.
    destruct (notifyOne_total Find st c0 q0 s) as [s1 Hone].
    { apply (Halive c0 q0). by left. }
    { apply (Halive c0 q0). by left. }
    rewrite Hone. simpl. apply IH. intros c q Hin.
    apply (notifyOne_alive st c0 q0 s); [done |].
    apply Halive. by right.
Qed.

Lemma notifyLoop_full_chan st order s s' c ch :
  chans s !! c = Some ch → (cap ch ≤ length (buf ch))%nat →
  notifyLoop Find st order s = Some s' → chans s' !! c = Some ch.
Proof.
  revert s. induction order as [|[c0 q0] order IH]; intros s Hc Hfull Hrun.
  - simpl in Hrun. by simplify_eq.
  - rewrite notifyLoop_cons in Hrun.
    destruct (notifyOne Find st c0 q0 s) as [s1|] eqn:Hone; [|done].
    apply notifyOne_spec in Hone as (qv & _ & _ & _ & _ & Hc0 & Hframe).
    apply (IH s1); [|done..].
    destruct (decide (c = c0)) as [->|Hne].
    + rewrite Hc0, Hc. simpl. by rewrite offer_full.
    + by rewrite Hframe.
Qed.

(** C4.  A send on an open channel whose buffer is full returns at once
    and changes nothing, and a send on a channel that is not closed always
    returns; a notify pass over a registry of allocated
    queries and open channels always completes, however full the
    channels are, and leaves every full channel exactly as it was. *)
Theorem notify_never_blocks st order s :
  range_order s order → registry_ok s →
  (∀ s0 c e ch, chans s0 !! c = Some ch → closed ch = false →
     (cap ch ≤ length (buf ch))%nat → try_send c e s0 = Some s0) ∧
  (∀ s0 c e, (∀ ch, chans s0 !! c = Some ch → closed ch = false) →
     is_Some (try_send c e s0)) ∧
  ∃ s', notifySubscribers Find st order s = Some s' ∧
    subscribers s' = subscribers s ∧
    ∀ c ch, chans s !! c = Some ch → (cap ch ≤ length (buf ch))%nat →
      chans s' !! c = Some ch.
Proof.
  intros Hord Hok. split.
  - intros s0 c e ch. apply try_send_full.
  - split; [intros s0 c e; apply try_send_total |].
    destruct (notifyLoop_total st order s) as [s' Hpass].
    { intros c q Hin. apply Hok.
      by apply (range_order_elem s order c q Hord). }
    exists s'. split; [done |]. split.
    + by apply (notifyLoop_subscribers Find st order).
    + intros c ch Hc Hfull.
      by apply (notifyLoop_full_chan st order s).
Qed.

End Pass.

(** ** The cursor *)

Section Cursor.

Context {Store : Type}.
Variable Find : Store → LogQuery → result (list Event).

(** The order in which the storage layer assigns identifiers. *)
Variable uuid_lt : relation string.
Hypothesis uuid_lt_order : StrictOrder uuid_lt.

Implicit Types (st : Store) (s : State) (c : chan) (q : loc).
Implicit Types (order : list (chan * loc)) (qv : LogQuery) (u : string).
Implicit Types (passes : list (Store * list (chan * loc))).

Notation "u ⪯ v" := (uuid_le uuid_lt u v) (at level 70).
Local Abbreviation contract := (Find_contract uuid_lt Find).
Local Abbreviation forward := (cursors_forward uuid_lt).

Lemma uuid_le_refl u : u ⪯ u.
Proof. by left. Qed.

Lemma uuid_le_trans u v w : u ⪯ v → v ⪯ w → u ⪯ w.
Proof.
  intros [->|Huv] [->|Hvw]; [by left | by right | by right |].
  right. by transitivity v.
Qed.

Lemma uuid_le_lt_trans u v w : u ⪯ v → uuid_lt v w → uuid_lt u w.
Proof. intros [->|Huv] Hvw; [done |]. by transitivity v. Qed.

Lemma uuid_le_not_lt u v : u ⪯ v → ¬ uuid_lt v u.
Proof.
  intros [->|Huv] Hvu.
  - by apply (irreflexivity uuid_lt v).
  - apply (irreflexivity uuid_lt u). by transitivity v.
Qed.

(** Under the contract the batch of a pass lies strictly after the
    cursor, oldest first. *)
Lemma found_after st qv :
  contract st → Forall (after uuid_lt (SinceUUID qv)) (found Find st qv).
Proof.
  intros Hc. unfold found.
  destruct (Find st (set_Reverse false qv)) as [events|e] eqn:Hfind;
    [|constructor].
  by destruct (Hc (set_Reverse false qv) events).
Qed.

Lemma found_oldest_first st qv :
  contract st → oldest_first uuid_lt (found Find st qv).
Proof.
  intros Hc. unfold found.
  destruct (Find st (set_Reverse false qv)) as [events|e] eqn:Hfind;
    [|constructor].
  by destruct (Hc (set_Reverse false qv) events).
Qed.

Lemma SinceUUID_step_query st qv :
  SinceUUID (step_query Find st qv)
  = from_option UUID (SinceUUID qv) (last (found Find st qv)).
Proof. unfold step_query, advance. by destruct (last _). Qed.

Lemma step_query_forward st qv :
  contract st → SinceUUID qv ⪯ SinceUUID (step_query Find st qv).
Proof.
  intros Hc. rewrite SinceUUID_step_query.
  destruct (last (found Find st qv)) as [e|] eqn:Hlast; simpl.
  - right. apply last_Some_elem_of in Hlast.
    pose proof (found_after st qv Hc) as Hall.
    rewrite Forall_forall in Hall. by apply Hall.
  - apply uuid_le_refl.
Qed.

Lemma forward_refl s : forward s s.
Proof. intros q u Hu. exists u. split; [done | apply uuid_le_refl]. Qed.

Lemma forward_trans s1 s2 s3 : forward s1 s2 → forward s2 s3 → forward s1 s3.
Proof.
  intros H12 H23 q u Hu.
  destruct (H12 q u Hu) as (u' & Hu' & Hle).
  destruct (H23 q u' Hu') as (u'' & Hu'' & Hle').
  exists u''. split; [done |]. by apply (uuid_le_trans u u').
Qed.

Lemma notifyOne_forward st c q s s' :
  contract st → notifyOne Find st c q s = Some s' → forward s s'.
Proof.
  intros Hc Hone q' u Hu.
  apply notifyOne_spec in Hone as (qv & Hq & _ & _ & Hqs & _).
  unfold cursor in *. rewrite Hqs.
  destruct (decide (q = q')) as [->|Hne].
  - rewrite lookup_insert_eq. rewrite Hq in Hu. simpl in *.
    injection Hu as <-. eexists. split; [done |].
    by apply step_query_forward.
  - rewrite lookup_insert_ne by done. exists u.
    split; [done | apply uuid_le_refl].
Qed.

Lemma notifyLoop_forward st order s s' :
  contract st → notifyLoop Find st order s = Some s' → forward s s'.
Proof.
  intros Hc. revert s. induction order as [|[c q] order IH]; intros s Hrun.
  - simpl in Hrun. simplify_eq. apply forward_refl.
  - rewrite notifyLoop_cons in Hrun.
    destruct (notifyOne Find st c q s) as [s1|] eqn:Hone; [|done].
    simpl in Hrun. apply (forward_trans s s1).
    + by apply (notifyOne_forward st c q).
    + by apply IH.
Qed.

Lemma notifyPasses_forward passes s s' :
  Forall (λ p, contract p.1) passes →
  notifyPasses Find passes s = Some s' → forward s s'.
Proof.
  revert s. induction passes as [|[st order] passes IH]; intros s Hcs Hrun.
  - simpl in Hrun. simplify_eq. apply forward_refl.
  - apply Forall_cons in Hcs as [Hc Hcs]. simpl in Hrun, Hc.
    destruct (notifySubscribers Find st order s) as [s1|] eqn:Hpass;
      [|done].
    simpl in Hrun. apply (forward_trans s s1).
    + by apply (notifyLoop_forward st order).
    + by apply IH.
Qed.

Lemma notifyPasses_subscribers passes s s' :
  notifyPasses Find passes s = Some s' → subscribers s' = subscribers s.
Proof.
  revert s. induction passes as [|[st order] passes IH]; intros s Hrun.
  - simpl in Hrun. by simplify_eq.
  - simpl in Hrun.
    destruct (notifySubscribers Find st order s) as [s1|] eqn:Hpass;
      [|done].
    simpl in Hrun. rewrite (IH s1 Hrun).
    by apply (notifyLoop_subscribers Find st order).
Qed.

(** What one pass does to a subscriber. *)
Lemma pass_entry st order s s' c q :
  range_order s order → subscriber s c q →
  notifySubscribers Find st order s = Some s' →
  ∃ qv, queries s !! q = Some qv ∧
    queries s' !! q = Some (step_query Find st qv) ∧
    chans s' !! c = offer (found Find st qv) <$> chans s !! c.
Proof.
  intros Hord [Hreg Honly] Hpass.
  apply (notifyLoop_entry Find st order s s' c q); try done.
  - by apply (range_order_NoDup s).
  - by apply (range_order_elem s order c q Hord).
  - intros c' Hin. apply Honly.
    by apply (range_order_elem s order c' q Hord).
Qed.

Lemma subscriber_same_registry s s' c q :
  subscribers s' = subscribers s → subscriber s c q → subscriber s' c q.
Proof. unfold subscriber, registry. by intros ->. Qed.

(** C3.  Assume the contract of the storage engine for the logs the
    passes read.  After any pass of any sequence of passes, the cursor of
    a subscriber is unchanged if the query of that pass failed or found
    nothing, and otherwise is the identifier of the last event of the
    batch, which lies strictly after the old cursor; along the whole
    sequence the cursor never moves backward. *)
Theorem cursor_monotone passes st order s0 s1 s2 c q u0 :
  Forall (λ p, contract p.1) passes → contract st →
  cursor s0 q = Some u0 →
  notifyPasses Find passes s0 = Some s1 →
  range_order s1 order → subscriber s1 c q →
  notifySubscribers Find st order s1 = Some s2 →
  ∃ qv1 u2, queries s1 !! q = Some qv1 ∧ cursor s2 q = Some u2 ∧
    match Find st (set_Reverse false qv1) with
    | Ok events =>
        match last events with
        | Some e => u2 = UUID e ∧ uuid_lt (SinceUUID qv1) u2
        | None => u2 = SinceUUID qv1
        end
    | Err _ => u2 = SinceUUID qv1
    end ∧
    u0 ⪯ SinceUUID qv1 ∧ SinceUUID qv1 ⪯ u2 ∧
    ¬ uuid_lt (SinceUUID qv1) u0 ∧ ¬ uuid_lt u2 (SinceUUID qv1) ∧
    ¬ uuid_lt u2 u0.
Proof.
  intros Hcs Hc Hu0 Hrun Hord Hsub Hpass.
  destruct (pass_entry st order s1 s2 c q Hord Hsub Hpass)
    as (qv1 & Hq1 & Hq2 & _).
  destruct (notifyPasses_forward passes s0 s1 Hcs Hrun q u0 Hu0)
    as (u1 & Hu1 & Hle01).
  unfold cursor in Hu1. rewrite Hq1 in Hu1. simpl in Hu1.
  injection Hu1 as <-.
  pose proof (step_query_forward st qv1 Hc) as Hle12.
  exists qv1, (SinceUUID (step_query Find st qv1)).
  split; [done |]. split; [unfold cursor; by rewrite Hq2 |].
  split; [|repeat split].
  - rewrite SinceUUID_step_query. pose proof (found_after st qv1 Hc) as Hall.
    unfold found in *.
    destruct (Find st (set_Reverse false qv1)) as [events|e]; [|done].
    destruct (last events) as [e|] eqn:Hlast; simpl; [|done].
    split; [done |]. apply last_Some_elem_of in Hlast.
    rewrite Forall_forall in Hall. by apply Hall.
  - done.
  - done.
  - by apply uuid_le_not_lt.
  - by apply uuid_le_not_lt.
  - apply uuid_le_not_lt. by apply (uuid_le_trans _ (SinceUUID qv1)).
Qed.

Lemma oldest_first_last events e d :
  oldest_first uuid_lt events → last events = Some e → d ∈ events →
  UUID d ⪯ UUID e.
Proof.
  intros Hsorted Hlast Hd. apply last_Some in Hlast as [front ->].
  apply elem_of_app in Hd as [Hd|Hd].
  - right.
    apply (StronglySorted_app_1_elem_of _ front [e] d e Hsorted Hd).
    by left.
  - apply list_elem_of_singleton in Hd as ->. apply uuid_le_refl.
Qed.

End Cursor.

(** ** The historical page *)

Lemma resumeCursor_spec reverse (events : list Event) :
  resumeCursor reverse events
  = match events with
    | [] => Some ""
    | _ => UUID <$> (if reverse then head events else last events)
    end.
Proof.
  unfold resumeCursor. destruct events as [|e events]; [done |].
  rewrite bool_decide_eq_true_2 by (simpl; lia).
  destruct reverse; [done |]. by rewrite last_lookup, Nat.sub_1_r.
Qed.

Lemma resumeCursor_total reverse (events : list Event) :
  is_Some (resumeCursor reverse events).
Proof.
  rewrite resumeCursor_spec. destruct events as [|e events]; [done |].
  destruct reverse; simpl; [done |].
  destruct (last (e :: events)) eqn:Hlast; [done |].
  by apply last_None in Hlast.
Qed.

Lemma trailing_window_fields now1 now2 query :
  SinceTime (trailing_window now1 now2 query)
    = (if IsZero (SinceTime query) then now1 - Hour else SinceTime query)%Z ∧
  UntilTime (trailing_window now1 now2 query)
    = (if IsZero (UntilTime query) then now2 else UntilTime query) ∧
  Services (trailing_window now1 now2 query) = Services query ∧
  repository.Severity (trailing_window now1 now2 query)
    = repository.Severity query ∧
  SinceUUID (trailing_window now1 now2 query) = SinceUUID query ∧
  Reverse (trailing_window now1 now2 query) = Reverse query.
Proof.
  unfold trailing_window, Add.
  destruct (IsZero (SinceTime query)), (IsZero (UntilTime query)) eqn:Hu;
    simpl; rewrite ?Hu; simpl; repeat split; lia.
Qed.

Section Page.

Context {Store : Type}.
Variable Find : Store → LogQuery → result (list Event).
Context {FormattedEvent : Type}.
Variable Format : Event → FormattedEvent.
Variable formatTime : Time → string.

Local Abbreviation HandleRead' := (HandleRead Find Format formatTime).

(** The handler stores the defaulted query, hands it to the storage
    engine, and answers with the error of the engine or with a page. *)
Lemma HandleRead_spec st now1 now2 q s query0 :
  queries s !! q = Some query0 →
  ∃ r s', HandleRead' st now1 now2 q s = Some (r, s') ∧
    subscribers s' = subscribers s ∧ chans s' = chans s ∧
    queries s' = <[q := trailing_window now1 now2 query0]> (queries s) ∧
    finds s' = finds s ++ [trailing_window now1 now2 query0] ∧
    match Find st (trailing_window now1 now2 query0) with
    | Err e => r = Err e
    | Ok events =>
        ∃ rsp, r = Ok rsp ∧ FormattedEvents rsp = Format <$> events ∧
          resumeCursor (Reverse query0) events = Some (LastUUID rsp) ∧
          rspReverse rsp = Reverse query0
    end.
Proof.
  intros Hq. unfold HandleRead. rewrite Hq. simpl.
  fold (trailing_window now1 now2 query0).
  destruct (trailing_window_fields now1 now2 query0)
    as (_ & _ & _ & _ & _ & Hrev).
  destruct (Find st (trailing_window now1 now2 query0)) as [events|e].
  - rewrite Hrev.
    destruct (resumeCursor_total (Reverse query0) events) as [u Hu].
    rewrite Hu. simpl. eexists _, _. split; [done |].
    repeat split. eexists. repeat split; done.
  - eexists _, _. split; [done |]. by repeat split.
Qed.

(** C7.  For a non-empty batch the resume cursor of the page is the
    identifier of the first returned event when [Reverse] is set and of
    the last returned event otherwise. *)
Theorem HandleRead_resume_cursor st now1 now2 q s query0 events :
  queries s !! q = Some query0 →
  Find st (trailing_window now1 now2 query0) = Ok events → events ≠ [] →
  ∃ rsp s', HandleRead' st now1 now2 q s = Some (Ok rsp, s') ∧
    Some (LastUUID rsp)
    = UUID <$> (if Reverse query0 then head events else last events).
Proof.
  intros Hq Hfind Hne.
  destruct (HandleRead_spec st now1 now2 q s query0 Hq)
    as (r & s' & Hrun & _ & _ & _ & _ & Hr).
  rewrite Hfind in Hr. destruct Hr as (rsp & -> & _ & Hcur & _).
  exists rsp, s'. split; [done |].
  rewrite <- Hcur, resumeCursor_spec. by destruct events.
Qed.

(** C8.  Before the storage query, a zero [SinceTime] becomes one hour
    before the current time and a zero [UntilTime] becomes the current
    time; a bound that was set and the other fields stay as they were;
    the storage engine is queried with the query so completed. *)
Theorem HandleRead_defaults_window st now1 now2 q s query0 :
  queries s !! q = Some query0 →
  ∃ query r s', HandleRead' st now1 now2 q s = Some (r, s') ∧
    SinceTime query
      = (if IsZero (SinceTime query0) then now1 - 3600 * 1000000000
         else SinceTime query0)%Z ∧
    UntilTime query
      = (if IsZero (UntilTime query0) then now2 else UntilTime query0) ∧
    Services query = Services query0 ∧
    repository.Severity query = repository.Severity query0 ∧
    SinceUUID query = SinceUUID query0 ∧
    Reverse query = Reverse query0 ∧
    queries s' !! q = Some query ∧
    finds s' = finds s ++ [query] ∧
    match Find st query with
    | Err e => r = Err e
    | Ok events =>
        ∃ rsp, r = Ok rsp ∧ FormattedEvents rsp = Format <$> events
    end.
Proof.
  intros Hq.
  destruct (HandleRead_spec st now1 now2 q s query0 Hq)
    as (r & s' & Hrun & _ & _ & Hqs & Hfs & Hr).
  destruct (trailing_window_fields now1 now2 query0)
    as (Hsince & Huntil & Hsvc & Hsev & Huuid & Hrev).
  exists (trailing_window now1 now2 query0), r, s'.
  split; [done |]. split; [exact Hsince |].
  repeat (split; [done |]).
  split; [by rewrite Hqs, lookup_insert_eq |]. split; [done |].
  destruct (Find st (trailing_window now1 now2 query0)) as [events|e];
    [|done].
  destruct Hr as (rsp & -> & Hfmt & _). by exists rsp.
Qed.

(** C10.  When the historical query returns no event the page carries
    the empty resume cursor, and [Subscribe] rejects every query whose
    cursor is that one, leaving the registry as it was. *)
Theorem empty_page_cannot_seed_live_tail st now1 now2 q s query0 :
  queries s !! q = Some query0 →
  Find st (trailing_window now1 now2 query0) = Ok [] →
  ∃ rsp s', HandleRead' st now1 now2 q s = Some (Ok rsp, s') ∧
    LastUUID rsp = "" ∧
    ∀ c q2 s2 qv2, queries s2 !! q2 = Some qv2 →
      SinceUUID qv2 = LastUUID rsp →
      Subscribe c q2 s2
      = Some (Some (InternalService "SinceUUID not set in subscriber query"),
              s2).
Proof.
  intros Hq Hfind.
  destruct (HandleRead_spec st now1 now2 q s query0 Hq)
    as (r & s' & Hrun & _ & _ & _ & _ & Hr).
  rewrite Hfind in Hr. destruct Hr as (rsp & -> & _ & Hcur & _).
  rewrite resumeCursor_spec in Hcur. injection Hcur as Hcur.
  exists rsp, s'. split; [done |]. split; [done |].
  intros c q2 s2 qv2 Hq2 Heq. unfold Subscribe. rewrite Hq2. simpl.
  rewrite bool_decide_eq_true_2; [done |]. by rewrite Heq.
Qed.

End Page.

(** ** The modelled storage engine meets the contract *)

Lemma lex_lt_spec a b : lex_lt a b ↔ OrderedTypeEx.String_as_OT.lt a b.
Proof.
  rewrite <- OrderedTypeEx.String_as_OT.cmp_lt.
  unfold lex_lt, String.ltb, OrderedTypeEx.String_as_OT.cmp.
  destruct (String.compare a b); split; congruence.
Qed.

Lemma lex_lt_strict : StrictOrder lex_lt.
Proof.
  split.
  - intros a Ha. apply lex_lt_spec in Ha.
    by apply OrderedTypeEx.String_as_OT.lt_not_eq in Ha.
  - intros a b c Hab Hbc. apply lex_lt_spec. apply lex_lt_spec in Hab, Hbc.
    by apply (OrderedTypeEx.String_as_OT.lt_trans a b c).
Qed.

Lemma lex_lt_empty u : u ≠ "" → lex_lt "" u.
Proof. by destruct u. Qed.

Lemma oldest_first_filter (uuid_lt : relation string) (P : Event → Prop)
    `{∀ e, Decision (P e)} (events : list Event) :
  oldest_first uuid_lt events → oldest_first uuid_lt (filter P events).
Proof.
  unfold oldest_first. induction 1 as [|e events Hsorted IH Hall].
  - constructor.
  - rewrite filter_cons. case_decide; [|done].
    constructor; [done |].
    rewrite Forall_forall in Hall. apply Forall_forall. intros d Hd.
    apply list_elem_of_filter in Hd as [_ Hd]. by apply Hall.
Qed.

Lemma logFind_contract log :
  oldest_first lex_lt log → Forall (λ e, UUID e ≠ "") log →
  Find_contract lex_lt logFind (Some log).
Proof.
  intros Hsorted Hnamed q events Hrev Hfind. simpl in Hfind.
  rewrite Hrev in Hfind. injection Hfind as <-. split.
  - by apply oldest_first_filter.
  - apply Forall_forall. intros e He.
    apply list_elem_of_filter in He as [Hm He].
    unfold matches in Hm. apply andb_prop_elim in Hm as [_ Hm].
    apply orb_prop_elim in Hm as [Hm|Hm].
    + apply bool_decide_unpack in Hm. unfold after. rewrite Hm.
      apply lex_lt_empty. rewrite Forall_forall in Hnamed. by apply Hnamed.
    + unfold after, lex_lt. by apply Is_true_true.
Qed.

Lemma logFind_contract_unreadable : Find_contract lex_lt logFind None.
Proof. intros q events _ Hfind. discriminate Hfind. Qed.

Lemma scenario_log_contract : Find_contract lex_lt logFind (Some scenario_log).
Proof.
  apply logFind_contract.
  - unfold oldest_first, scenario_log. repeat constructor.
  - unfold scenario_log. repeat constructor; done.
Qed.

Lemma scenario_log_later_contract :
  Find_contract lex_lt logFind (Some scenario_log_later).
Proof.
  apply logFind_contract.
  - unfold oldest_first, scenario_log_later, scenario_log. simpl.
    repeat constructor.
  - unfold scenario_log_later, scenario_log. simpl. repeat constructor; done.
Qed.

(** ** The scenario *)

Lemma scenario_registry c q :
  registry scenario_state !! c = Some q →
  (c = 1 ∧ q = 10)%nat ∨ (c = 2 ∧ q = 20)%nat.
Proof.
  unfold registry, scenario_state; simpl. intros H.
  apply lookup_insert_Some in H as [[<- <-]|[_ H]]; [by left |].
  apply lookup_singleton_Some in H as [<- <-]. by right.
Qed.

Lemma scenario_subscriber_1 : subscriber scenario_state 1%nat 10%nat.
Proof.
  split; [done |]. intros c' H.
  by destruct (scenario_registry c' _ H) as [[-> _]|[_ ?]].
Qed.

Lemma scenario_registry_ok : registry_ok scenario_full.
Proof.
  intros c q H. apply scenario_registry in H as [[-> ->]|[-> ->]].
  - split; [by eexists |]. intros ch Hch. vm_compute in Hch.
    by injection Hch as <-.
  - split; [by eexists |]. intros ch Hch. vm_compute in Hch.
    by injection Hch as <-.
Qed.

Lemma scenario_pass :
  notifySubscribers logFind (Some scenario_log) scenario_order scenario_state
  = Some scenario_after.
Proof. vm_compute. reflexivity. Qed.

Lemma scenario_second_pass :
  notifyPasses logFind [(Some scenario_log_later, scenario_order)]
    scenario_after
  = Some scenario_later.
Proof. vm_compute. reflexivity. Qed.

Example scenario_cursors :
  cursor scenario_state 10%nat = Some "u3" ∧
  cursor scenario_after 10%nat = Some "u6" ∧
  cursor scenario_later 10%nat = Some "u7" ∧
  buffer scenario_after 1%nat
    = Some [event "u4" "lighting" 4; event "u5" "lighting" 5] ∧
  buffer scenario_later 1%nat
    = Some [event "u4" "lighting" 4; event "u5" "lighting" 5].
Proof. vm_compute. done. Qed.

(** ** The theorems at the scenario *)

Lemma cursor_monotone_witness :
  ∃ qv1 u2, queries scenario_after !! 10%nat = Some qv1 ∧
    cursor scenario_later 10%nat = Some u2 ∧
    ¬ lex_lt u2 (SinceUUID qv1) ∧ ¬ lex_lt u2 "u3".
Proof.
  destruct (cursor_monotone logFind lex_lt lex_lt_strict
              [(Some scenario_log, scenario_order)] (Some scenario_log_later)
              scenario_order scenario_state scenario_after scenario_later
              1%nat 10%nat "u3")
    as (qv1 & u2 & Hq1 & Hu2 & _ & _ & _ & _ & Hback1 & Hback0).
  - constructor; [apply scenario_log_contract | constructor].
  - apply scenario_log_later_contract.
  - reflexivity.
  - vm_compute. reflexivity.
  - apply scenario_order_range.
  - apply scenario_subscriber_1.
  - vm_compute. reflexivity.
  - exists qv1, u2. split; [exact Hq1 |]. split; [exact Hu2 |].
    split; [exact Hback1 | exact Hback0].
Defined.

Lemma notify_never_blocks_witness :
  ∃ s', notifySubscribers logFind (Some scenario_log) scenario_order
          scenario_full = Some s' ∧
    chans s' !! 1%nat
      = Some (mkChannel 1 [event "u0" "lighting" 0] false) ∧
    chans s' !! 2%nat = Some (mkChannel 0 [] false).
Proof.
  destruct (notify_never_blocks logFind (Some scenario_log) scenario_order
              scenario_full)
    as (_ & _ & s' & Hpass & _ & Hfull).
  - apply scenario_full_range.
  - apply scenario_registry_ok.
  - exists s'. split; [exact Hpass |]. split.
    + apply Hfull; [reflexivity | simpl; lia].
    + apply Hfull; [reflexivity | simpl; lia].
Defined.

Lemma notify_query_error_keeps_subscriber_witness :
  registry (default scenario_state
              (notifySubscribers logFind None scenario_order scenario_state))
    !! 1%nat = Some 10%nat ∧
  cursor (default scenario_state
            (notifySubscribers logFind None scenario_order scenario_state))
    10%nat = Some "u3".
Proof.
  destruct (notify_query_error_keeps_subscriber logFind None scenario_order
              scenario_state
              (default scenario_state
                 (notifySubscribers logFind None scenario_order
                    scenario_state))
              1%nat 10%nat (scenario_query "u3" true)
              (Wrap "open log directory"))
    as (Hreg & _ & Hcur & _ & _).
  - apply scenario_order_range.
  - apply scenario_subscriber_1.
  - reflexivity.
  - reflexivity.
  - vm_compute. reflexivity.
  - split; [exact Hreg | exact Hcur].
Defined.

Lemma notify_normalizes_direction_witness :
  Reverse (scenario_query "u3" true) = true ∧
  ∀ c q, registry scenario_after !! c = Some q →
    ∃ qv', queries scenario_after !! q = Some qv' ∧ Reverse qv' = false.
Proof.
  split; [reflexivity |].
  apply (notify_normalizes_direction logFind (Some scenario_log)
           scenario_order scenario_state scenario_after).
  - apply scenario_order_range.
  - apply scenario_pass.
Defined.

Lemma HandleRead_resume_cursor_witness :
  ∃ rsp s',
    HandleRead logFind id (λ _, "") (Some scenario_log)
      3600000000001 3600000000002 10%nat scenario_state
    = Some (Ok rsp, s') ∧
    Some (LastUUID rsp) = Some "u6".
Proof.
  apply (HandleRead_resume_cursor logFind id (λ _, "") (Some scenario_log)
           3600000000001 3600000000002 10%nat scenario_state
           (scenario_query "u3" true)
           [event "u6" "lighting" 6; event "u5" "lighting" 5;
            event "u4" "lighting" 4]).
  - reflexivity.
  - vm_compute. reflexivity.
  - discriminate.
Defined.

Lemma HandleRead_defaults_window_witness :
  ∃ query r s',
    HandleRead logFind id (λ _, "") (Some scenario_log)
      3600000000001 3600000000002 10%nat scenario_state
    = Some (r, s') ∧
    SinceTime query = 1 ∧ UntilTime query = 3600000000002.
Proof.
  destruct (HandleRead_defaults_window logFind id (λ _, "")
              (Some scenario_log) 3600000000001 3600000000002 10%nat
              scenario_state (scenario_query "u3" true))
    as (query & r & s' & Hrun & Hsince & Huntil & _).
  - reflexivity.
  - exists query, r, s'. split; [exact Hrun |].
    split; [exact Hsince | exact Huntil].
Defined.

Lemma empty_page_cannot_seed_live_tail_witness :
  ∃ rsp s',
    HandleRead logFind id (λ _, "") (Some [])
      3600000000001 3600000000002 20%nat scenario_state
    = Some (Ok rsp, s') ∧
    LastUUID rsp = "" ∧
    Subscribe 3%nat 30%nat scenario_state
    = Some (Some (InternalService "SinceUUID not set in subscriber query"),
            scenario_state).
Proof.
  destruct (empty_page_cannot_seed_live_tail logFind id (λ _, "") (Some [])
              3600000000001 3600000000002 20%nat scenario_state
              (scenario_query "u5" false))
    as (rsp & s' & Hrun & Hlast & Hsub).
  - reflexivity.
  - reflexivity.
  - exists rsp, s'. split; [exact Hrun |]. split; [exact Hlast |].
    apply (Hsub 3%nat 30%nat scenario_state (scenario_query "" false)).
    + reflexivity.
    + rewrite Hlast. reflexivity.
Defined.


(** * Further properties of the registry *)

Section RegistryMore.

Context {Store : Type}.
Variable Find : Store → LogQuery → result (list Event).

Implicit Types (st : Store) (s : State) (c : chan) (q : loc).
Implicit Types (order : list (chan * loc)) (qv : LogQuery).

Lemma offer_bounded events ch :
  (length (buf ch) ≤ cap ch)%nat →
  (length (buf (offer events ch)) ≤ cap ch)%nat.
Proof.
  intros Hle. unfold offer, room; simpl.
  rewrite length_app, length_take. lia.
Qed.

Lemma registry_Unsubscribe c s :
  registry (Unsubscribe c s) = delete c (registry s).
Proof.
  unfold Unsubscribe, registry; simpl.
  destruct (subscribers s); simpl; [done | by rewrite delete_empty].
Qed.

(** A query with a cursor is accepted: the entry of the channel is set,
    in a fresh map when the map was nil. *)
Lemma Subscribe_accepts c q s qv :
  queries s !! q = Some qv → SinceUUID qv ≠ "" →
  Subscribe c q s
  = Some (None, set_subscribers (Some (<[c := q]> (registry s))) s).
Proof.
  intros Hq Hcur. unfold Subscribe, registry. rewrite Hq. simpl.
  rewrite bool_decide_eq_false_2 by done. by destruct (subscribers s).
Qed.

(** Subscribing and then unsubscribing a channel that had no entry gives
    back the registry as it was, with every query and channel untouched;
    the map field itself is no longer nil. *)
Theorem Subscribe_Unsubscribe c q s qv :
  queries s !! q = Some qv → SinceUUID qv ≠ "" →
  ∃ s1, Subscribe c q s = Some (None, s1) ∧
    registry s1 !! c = Some q ∧
    registry (Unsubscribe c s1) = delete c (registry s) ∧
    (registry s !! c = None → registry (Unsubscribe c s1) = registry s) ∧
    is_Some (subscribers (Unsubscribe c s1)) ∧
    queries (Unsubscribe c s1) = queries s ∧
    chans (Unsubscribe c s1) = chans s ∧
    finds (Unsubscribe c s1) = finds s.
Proof.
  intros Hq Hcur. eexists. split; [by apply (Subscribe_accepts c q s qv) |].
  unfold Unsubscribe, registry at 1 2 3; simpl.
  rewrite lookup_insert_eq, delete_insert_eq.
  repeat split; try done.
  intros Hnone. by rewrite delete_id.
Qed.

(** Subscribing a channel again replaces its query: the outcome is that
    of the last call alone. *)
Theorem Subscribe_last_wins c q1 q2 s qv1 qv2 :
  queries s !! q1 = Some qv1 → SinceUUID qv1 ≠ "" →
  queries s !! q2 = Some qv2 → SinceUUID qv2 ≠ "" →
  ∃ s1 s2, Subscribe c q1 s = Some (None, s1) ∧
    Subscribe c q2 s1 = Some (None, s2) ∧
    Subscribe c q2 s = Some (None, s2) ∧
    registry s2 !! c = Some q2.
Proof.
  intros Hq1 Hcur1 Hq2 Hcur2.
  exists (set_subscribers (Some (<[c := q1]> (registry s))) s),
         (set_subscribers (Some (<[c := q2]> (registry s))) s).
  split; [by apply (Subscribe_accepts c q1 s qv1) |].
  split; [|split; [by apply (Subscribe_accepts c q2 s qv2) |]].
  - rewrite (Subscribe_accepts c q2 _ qv2) by done.
    unfold set_subscribers, registry; simpl. by rewrite insert_insert_eq.
  - unfold registry; simpl. by rewrite lookup_insert_eq.
Qed.

Lemma subscriber_after_Subscribe c q s :
  (∀ c', registry s !! c' = Some q → c' = c) →
  subscriber (set_subscribers (Some (<[c := q]> (registry s))) s) c q.
Proof.
  intros Honly. unfold subscriber, registry at 1 3; simpl. split.
  - by rewrite lookup_insert_eq.
  - intros c' Hc'. destruct (decide (c' = c)) as [->|Hne]; [done |].
    rewrite lookup_insert_ne in Hc' by done. by apply Honly.
Qed.


(** After [Unsubscribe] a pass leaves the channel alone, and the query
    that was registered under it alone is no longer touched. *)
Theorem Unsubscribe_then_notify c s st order s' :
  range_order (Unsubscribe c s) order →
  notifySubscribers Find st order (Unsubscribe c s) = Some s' →
  chans s' !! c = chans s !! c ∧
  registry s' !! c = None ∧
  ∀ q, subscriber s c q → queries s' !! q = queries s !! q.
Proof.
  intros Hord Hpass.
  pose proof (registry_Unsubscribe c s) as Hreg.
  assert (chans (Unsubscribe c s) = chans s) as Hcs by done.
  assert (queries (Unsubscribe c s) = queries s) as Hqs by done.
  assert (registry (Unsubscribe c s) !! c = None) as Hnone
    by (by rewrite Hreg, lookup_delete_eq).
  split; [|split].
  - rewrite <- Hcs. apply (notifyLoop_frame_chan Find st order); [|done].
    by apply (range_order_fresh (Unsubscribe c s)).
  - unfold registry in *.
    by rewrite (notifyLoop_subscribers Find st order _ s' Hpass).
  - intros q [Hq Honly]. rewrite <- Hqs.
    apply (notifyLoop_frame_query Find st order); [|done].
    intros Hin. apply list_elem_of_fmap in Hin as ([c' q'] & Heq & Hin).
    simpl in Heq. subst q'.
    apply (range_order_elem _ order c' q Hord) in Hin.
    rewrite Hreg in Hin. apply lookup_delete_Some in Hin as [Hne Hin].
    by apply Hne, eq_sym, Honly.
Qed.

(** A pass over a registry without entries, nil or empty, does nothing. *)
Theorem notify_empty_registry st order s :
  registry s = ∅ → range_order s order →
  notifySubscribers Find st order s = Some s.
Proof.
  unfold range_order. intros -> Hord. rewrite map_to_list_empty in Hord.
  by apply Permutation_nil_r in Hord as ->.
Qed.

Lemma grows_refl ch : grows ch ch.
Proof. repeat split. exists []. by rewrite app_nil_r. Qed.

Lemma grows_trans ch1 ch2 ch3 : grows ch1 ch2 → grows ch2 ch3 → grows ch1 ch3.
Proof.
  intros (Hc1 & Hd1 & a1 & Hb1) (Hc2 & Hd2 & a2 & Hb2).
  split; [congruence |]. split; [congruence |].
  exists (a1 ++ a2). by rewrite Hb2, Hb1, app_assoc.
Qed.

Lemma grows_offer events ch : grows ch (offer events ch).
Proof. repeat split. by eexists. Qed.

(** Whatever the order of the visit, a pass creates no channel, closes
    none, changes no capacity and takes nothing out of a buffer: it only
    puts events behind those that are waiting, and never more than the
    capacity allows. *)
Theorem notify_keeps_channels st order s s' c :
  notifySubscribers Find st order s = Some s' →
  match chans s !! c with
  | None => chans s' !! c = None
  | Some ch =>
      ∃ ch', chans s' !! c = Some ch' ∧ grows ch ch' ∧
        ((length (buf ch) ≤ cap ch)%nat → (length (buf ch') ≤ cap ch')%nat)
  end.
Proof.
  unfold notifySubscribers. revert s.
  induction order as [|[c0 q0] order IH]; intros s Hrun.
  - simpl in Hrun. simplify_eq. destruct (chans s' !! c) as [ch|]; [|done].
    exists ch. split; [done |]. split; [apply grows_refl | done].
  - rewrite notifyLoop_cons in Hrun.
    destruct (notifyOne Find st c0 q0 s) as [s1|] eqn:Hone; [|done].
    apply notifyOne_spec in Hone as (qv & _ & _ & _ & _ & Hc0 & Hframe).
    simpl in Hrun. specialize (IH s1 Hrun).
    assert (chans s1 !! c
            = (if decide (c = c0) then offer (found Find st qv) else id)
                <$> chans s !! c) as Hstep.
    { case_decide as Hc; [by subst c |].
      rewrite Hframe by done. by destruct (chans s !! c). }
    rewrite Hstep in IH. destruct (chans s !! c) as [ch|]; [|done].
    simpl in IH. destruct IH as (ch' & Hch' & Hgrow & Hbound).
    exists ch'. split; [done |].
    case_decide as Hc.
    + split; [by apply (grows_trans _ (offer (found Find st qv) ch)),
                 Hgrow; apply grows_offer |].
      intros Hle. apply Hbound.
      exact (offer_bounded (found Find st qv) ch Hle).
    + done.
Qed.

Lemma same_filter_refl qv : same_filter qv qv.
Proof. by repeat split. Qed.

Lemma same_filter_trans qv1 qv2 qv3 :
  same_filter qv1 qv2 → same_filter qv2 qv3 → same_filter qv1 qv3.
Proof.
  intros (? & ? & ? & ?) (? & ? & ? & ?). repeat split; congruence.
Qed.

Lemma same_filter_step_query st qv : same_filter qv (step_query Find st qv).
Proof.
  unfold step_query, advance.
  destruct (last (found Find st qv)); by repeat split.
Qed.

(** Whatever the order of the visit, a pass allocates and frees no query,
    and changes no service list, severity threshold or time bound: of a
    query it writes the cursor and the direction only. *)
Theorem notify_keeps_filters st order s s' q :
  notifySubscribers Find st order s = Some s' →
  match queries s !! q with
  | None => queries s' !! q = None
  | Some qv =>
      ∃ qv', queries s' !! q = Some qv' ∧ same_filter qv qv' ∧
        (q ∉ order.*2 → qv' = qv)
  end.
Proof.
  unfold notifySubscribers. revert s.
  induction order as [|[c0 q0] order IH]; intros s Hrun.
  - simpl in Hrun. simplify_eq. destruct (queries s' !! q) as [qv|]; [|done].
    exists qv. split; [done |]. split; [apply same_filter_refl | done].
  - rewrite notifyLoop_cons in Hrun.
    destruct (notifyOne Find st c0 q0 s) as [s1|] eqn:Hone; [|done].
    apply notifyOne_spec in Hone as (qv0 & Hq0 & _ & _ & Hqs & _).
    simpl in Hrun. specialize (IH s1 Hrun). rewrite Hqs in IH.
    destruct (decide (q0 = q)) as [->|Hne].
    + rewrite lookup_insert_eq in IH. rewrite Hq0.
      destruct IH as (qv' & Hq' & Hsame & _). exists qv'.
      split; [done |]. split.
      * by apply (same_filter_trans _ (step_query Find st qv0)),
          Hsame; apply same_filter_step_query.
      * intros Hnotin. exfalso. apply Hnotin. simpl. by left.
    + rewrite lookup_insert_ne in IH by done.
      destruct (queries s !! q) as [qv|]; [|done].
      destruct IH as (qv' & Hq' & Hsame & Hid). exists qv'.
      split; [done |]. split; [done |].
      intros Hnotin. apply Hid. simpl in Hnotin.
      by apply not_elem_of_cons in Hnotin as [_ ?].
Qed.

End RegistryMore.

(** * What the reader of a channel sees *)

Section TailOrder.

Context {Store : Type}.
Variable Find : Store → LogQuery → result (list Event).
Variable uuid_lt : relation string.
Hypothesis uuid_lt_order : StrictOrder uuid_lt.

Implicit Types (st : Store) (s : State) (c : chan) (q : loc).
Implicit Types (order : list (chan * loc)) (seen : list Event).

Local Notation "u ⪯ v" := (uuid_le uuid_lt u v) (at level 70).

Lemma oldest_first_take n (events : list Event) :
  oldest_first uuid_lt events → oldest_first uuid_lt (take n events).
Proof.
  intros Hsorted. rewrite <- (take_drop n events) in Hsorted.
  by apply StronglySorted_app_1_l in Hsorted.
Qed.

Lemma oldest_first_NoDup (events : list Event) :
  oldest_first uuid_lt events → NoDup (UUID <$> events).
Proof.
  unfold oldest_first. induction 1 as [|e events Hsorted IH Hall]; simpl.
  - constructor.
  - constructor; [|done]. intros Hin.
    apply list_elem_of_fmap in Hin as (d & Heq & Hd).
    rewrite Forall_forall in Hall. specialize (Hall d Hd).
    rewrite Heq in Hall. by apply (irreflexivity uuid_lt (UUID d)).
Qed.

Lemma in_order_pass u0 st order s s' c q seen :
  Find_contract uuid_lt Find st → range_order s order → subscriber s c q →
  notifySubscribers Find st order s = Some s' →
  in_order uuid_lt u0 s c q seen → in_order uuid_lt u0 s' c q seen.
Proof.
  intros Hc Hord Hsub Hpass (qv & ch & Hq & Hch & Hu0 & Hsorted & Hall).
  destruct (pass_entry Find st order s s' c q Hord Hsub Hpass)
    as (qv' & Hq' & Hq1 & Hc1).
  rewrite Hq in Hq'. injection Hq' as <-. rewrite Hch in Hc1. simpl in Hc1.
  pose proof (step_query_forward Find uuid_lt st qv Hc) as Hfwd.
  pose proof (found_after Find uuid_lt st qv Hc) as Hafter.
  pose proof (found_oldest_first Find uuid_lt st qv Hc) as Hfound.
  rewrite Forall_forall in Hall, Hafter.
  exists (step_query Find st qv), (offer (found Find st qv) ch).
  split; [done |]. split; [done |].
  split; [by apply (uuid_le_trans uuid_lt _ u0 (SinceUUID qv)) |].
  simpl. rewrite app_assoc. split.
  - apply StronglySorted_app. split; [|split].
    + intros x y Hx Hy. apply subseteq_take in Hy.
      apply (uuid_le_lt_trans uuid_lt _ _ (SinceUUID qv)).
      * by apply Hall.
      * by apply Hafter.
    + done.
    + by apply oldest_first_take.
  - apply Forall_forall. intros e He. apply elem_of_app in He as [He|He].
    + destruct (Hall e He) as [Hlo Hhi]. split; [done |].
      by apply (uuid_le_trans uuid_lt _ _ (SinceUUID qv)).
    + apply subseteq_take in He. split.
      * apply (uuid_le_lt_trans uuid_lt _ _ (SinceUUID qv)); [done |].
        by apply Hafter.
      * rewrite SinceUUID_step_query.
        destruct (last (found Find st qv)) as [l|] eqn:Hlast; simpl.
        -- by apply (oldest_first_last uuid_lt (found Find st qv)).
        -- apply last_None in Hlast. rewrite Hlast in He.
           by apply elem_of_nil in He.
Qed.

Lemma receive_spec c s e s' :
  receive c s = Some (e, s') →
  ∃ ch rest, chans s !! c = Some ch ∧ buf ch = e :: rest ∧
    subscribers s' = subscribers s ∧ queries s' = queries s ∧
    finds s' = finds s ∧
    chans s' = <[c := mkChannel (cap ch) rest (closed ch)]> (chans s).
Proof.
  unfold receive. destruct (chans s !! c) as [[n [|d rest] cl]|] eqn:Hc;
    try done.
  intros H. injection H as -> <-.
  by exists (mkChannel n (e :: rest) cl), rest.
Qed.

Lemma in_order_take u0 c q s s' e seen :
  receive c s = Some (e, s') →
  in_order uuid_lt u0 s c q seen → in_order uuid_lt u0 s' c q (seen ++ [e]).
Proof.
  intros Hrecv (qv & ch & Hq & Hch & Hu0 & Hsorted & Hall).
  apply receive_spec in Hrecv
    as (ch' & rest & Hch' & Hbuf & _ & Hqs & _ & Hcs).
  rewrite Hch in Hch'. injection Hch' as <-. rewrite Hbuf in Hsorted, Hall.
  exists qv, (mkChannel (cap ch) rest (closed ch)).
  rewrite Hqs, Hcs, lookup_insert_eq. simpl. rewrite <- app_assoc. done.
Qed.

Lemma tail_in_order_from u0 c q acts s s' seen0 seen :
  Forall (pass_ok uuid_lt Find s) acts → subscriber s c q →
  in_order uuid_lt u0 s c q seen0 →
  tail Find c acts seen0 s = Some (seen, s') →
  in_order uuid_lt u0 s' c q seen.
Proof.
  revert s seen0. induction acts as [|[st order|] acts IH];
    intros s seen0 Hok Hsub Hinv Hrun.
  - simpl in Hrun. by simplify_eq.
  - apply Forall_cons in Hok as [[Hc Hord] Hok]. simpl in Hrun.
    destruct (notifySubscribers Find st order s) as [s1|] eqn:Hpass;
      [|done].
    simpl in Hrun.
    pose proof (notifyLoop_subscribers Find st order s s1 Hpass) as Hsame.
    apply (IH s1 seen0); [| |by apply (in_order_pass u0 st order s)|done].
    + eapply Forall_impl; [exact Hok |]. intros [st' order'|]; [|done].
      intros [? ?]. split; [done |].
      by apply (range_order_same_registry s).
    + by apply (subscriber_same_registry s).
  - apply Forall_cons in Hok as [_ Hok]. simpl in Hrun.
    destruct (receive c s) as [[e s1]|] eqn:Hrecv.
    + pose proof Hrecv as Hspec.
      apply receive_spec in Hspec as (_ & _ & _ & _ & Hsame & _).
      apply (IH s1 (seen0 ++ [e])); [| |by apply (in_order_take u0 c q s)|done].
      * eapply Forall_impl; [exact Hok |]. intros [st' order'|]; [|done].
        intros [? ?]. split; [done |].
        by apply (range_order_same_registry s).
      * by apply (subscriber_same_registry s).
    + by apply (IH s seen0).
Qed.

(** Let passes of the watcher and receives of the reader alternate in any
    way on a channel whose buffer starts empty.  Under the contract of the
    storage engine, the reader takes the events in assignment order, each
    once, all of them after the cursor the subscription started from; the
    same holds of what is still waiting behind them. *)
Theorem tail_in_order c q acts s s' qv ch seen :
  Forall (pass_ok uuid_lt Find s) acts → subscriber s c q →
  queries s !! q = Some qv → chans s !! c = Some ch → buf ch = [] →
  tail Find c acts [] s = Some (seen, s') →
  ∃ ch', chans s' !! c = Some ch' ∧
    oldest_first uuid_lt (seen ++ buf ch') ∧
    NoDup (UUID <$> seen ++ buf ch') ∧
    Forall (after uuid_lt (SinceUUID qv)) (seen ++ buf ch').
Proof.
  intros Hok Hsub Hq Hch Hbuf Hrun.
  destruct (tail_in_order_from (SinceUUID qv) c q acts s s' [] seen)
    as (qv' & ch' & _ & Hch' & _ & Hsorted & Hall); try done.
  { exists qv, ch. rewrite Hbuf. simpl.
    repeat split; try done; [apply uuid_le_refl | constructor]. }
  exists ch'. split; [done |]. split; [done |].
  split; [by apply oldest_first_NoDup |].
  eapply Forall_impl; [exact Hall |]. by intros e [? _].
Qed.

End TailOrder.

(** * The watch loop *)

Section StartFacts.

Context {Store : Type}.
Variable Find : Store → LogQuery → result (list Event).
Variable fsnotify_Write : N.

Implicit Types (signals : list (signal Store)) (s : State).

Local Abbreviation watchLoop' := (watchLoop Find fsnotify_Write).
Local Abbreviation Start' := (Start Find fsnotify_Write).

Lemma watchLoop_passes signals s :
  watchLoop' signals s
  = notifyPasses Find (passes_of fsnotify_Write signals) s
      ≫= λ s', Some (exit_of signals, s').
Proof.
  revert s. induction signals as [|[op st order| | |] signals IH]; intros s;
    try done.
  simpl. destruct (is_write fsnotify_Write op); [|by apply IH].
  simpl. destruct (notifySubscribers Find st order s) as [s1|]; [|done].
  simpl. by apply IH.
Qed.

Lemma watchLoop_stops pre sig post s :
  ends_loop sig = true →
  watchLoop' (pre ++ sig :: post) s = watchLoop' (pre ++ [sig]) s.
Proof.
  intros Hend. revert s.
  induction pre as [|[op st order| | |] pre IH]; intros s; try done.
  - by destruct sig.
  - simpl. destruct (is_write fsnotify_Write op); [|by apply IH].
    destruct (notifySubscribers Find st order s) as [s1|]; [|done].
    simpl. by apply IH.
Qed.

Lemma watchLoop_non_writes signals s :
  (∀ op st order, FileEvent op st order ∈ signals →
     is_write fsnotify_Write op = false) →
  watchLoop' signals s = Some (exit_of signals, s).
Proof.
  induction signals as [|[op st order| | |] signals IH]; intros Hall;
    try done.
  simpl. rewrite (Hall op st order) by (by left).
  apply IH. intros op' st' order' Hin. apply (Hall op' st' order'). by right.
Qed.

(** Once the watch is in place, [Start] makes one notify pass per write
    event, in the order of the events, up to the first signal that ends
    the loop, and nothing else; it returns nil when that signal is a closed
    channel and the wrapped error when it is a watch error. *)
Theorem Start_runs_passes r signals s :
  LogDirectory r ≠ "" →
  Start' (Some r) None None signals s
  = notifyPasses Find (passes_of fsnotify_Write signals) s
      ≫= λ s', Some (exit_of signals, s').
Proof.
  intros Hdir. unfold Start. rewrite bool_decide_eq_false_2 by done.
  apply watchLoop_passes.
Qed.

(** Whatever the configuration, [Start] looks at nothing that comes after
    the first closed channel or watch error. *)
Theorem Start_stops repo newWatcher add pre sig post s :
  ends_loop sig = true →
  Start' repo newWatcher add (pre ++ sig :: post) s
  = Start' repo newWatcher add (pre ++ [sig]) s.
Proof.
  intros Hend. unfold Start.
  destruct repo as [r|]; [|done]. case_bool_decide; [done |].
  destruct newWatcher; [done |]. destruct add; [done |].
  by apply watchLoop_stops.
Qed.

(** Whatever the configuration, file events without the write bits never
    lead to a pass: the state stays as it was and the storage engine is
    not queried. *)
Theorem Start_skips_non_writes repo newWatcher add signals s :
  (∀ op st order, FileEvent op st order ∈ signals →
     is_write fsnotify_Write op = false) →
  ∃ e, Start' repo newWatcher add signals s = Some (e, s).
Proof.
  intros Hall. unfold Start.
  destruct repo as [r|]; [|by eexists]. case_bool_decide; [by eexists |].
  destruct newWatcher; [by eexists |]. destruct add; [by eexists |].
  eexists. by apply watchLoop_non_writes.
Qed.

(** The test of the write bits holds of every [Op] that carries them,
    alone or with others, and fails for every [Op] that shares no bit with
    them. *)
Theorem is_write_bits op :
  is_write fsnotify_Write (N.lor op fsnotify_Write) = true ∧
  (fsnotify_Write ≠ 0%N → N.land op fsnotify_Write = 0%N →
   is_write fsnotify_Write op = false).
Proof.
  unfold is_write. split.
  - apply bool_decide_eq_true_2. apply N.bits_inj. intros n.
    rewrite N.land_spec, N.lor_spec.
    by destruct (N.testbit op n), (N.testbit fsnotify_Write n).
  - intros Hne Hzero. apply bool_decide_eq_false_2. congruence.
Qed.

End StartFacts.

(** * Requests *)

Lemma splitCommas_nonempty t : splitCommas t ≠ [].
Proof.
  destruct t as [|a t]; [done |]. cbn [splitCommas].
  destruct (Ascii.eqb a ","); [done |]. by destruct (splitCommas t).
Qed.

Lemma concat_splitCommas t : String.concat "," (splitCommas t) = t.
Proof.
  induction t as [|a t IH]; [done |]. cbn [splitCommas].
  pose proof (splitCommas_nonempty t) as Hne.
  destruct (Ascii.eqb a ",") eqn:Ha.
  - apply Ascii.eqb_eq in Ha as ->.
    destruct (splitCommas t) as [|p ps]; [done |].
    change (String.concat "," (EmptyString :: p :: ps))
      with (String "," (String.concat "," (p :: ps))).
    by rewrite IH.
  - destruct (splitCommas t) as [|p ps]; [done |].
    rewrite <- IH. by destruct ps.
Qed.

Lemma occurs_String a b t :
  occurs a (String b t) = Ascii.eqb a b || occurs a t.
Proof. done. Qed.

Lemma removeSpaces_String a t :
  removeSpaces (String a t)
  = if Ascii.eqb a " " then removeSpaces t else String a (removeSpaces t).
Proof. done. Qed.

Lemma splitCommas_String a t :
  splitCommas (String a t)
  = if Ascii.eqb a "," then EmptyString :: splitCommas t
    else match splitCommas t with
         | piece :: pieces => String a piece :: pieces
         | [] => [String a EmptyString]
         end.
Proof. done. Qed.

Lemma occurs_removeSpaces t : occurs " " (removeSpaces t) = false.
Proof.
  induction t as [|a t IH]; [done |]. rewrite removeSpaces_String.
  destruct (Ascii.eqb a " ") eqn:Ha; [done |].
  by rewrite occurs_String, Ascii.eqb_sym, Ha.
Qed.

Lemma removeSpaces_id t : occurs " " t = false → removeSpaces t = t.
Proof.
  induction t as [|a t IH]; [done |].
  rewrite occurs_String, removeSpaces_String. intros H.
  apply orb_false_elim in H as [Ha Ht]. rewrite Ascii.eqb_sym in Ha.
  by rewrite Ha, IH.
Qed.

Lemma removeSpaces_append t1 t2 :
  removeSpaces (String.append t1 t2)
  = String.append (removeSpaces t1) (removeSpaces t2).
Proof.
  induction t1 as [|a t1 IH]; [done |].
  change (String.append (String a t1) t2) with (String a (String.append t1 t2)).
  rewrite !removeSpaces_String.
  destruct (Ascii.eqb a " "); [done |]. by rewrite IH.
Qed.

Lemma occurs_splitCommas a t :
  occurs a t = false → Forall (λ p, occurs a p = false) (splitCommas t).
Proof.
  induction t as [|b t IH]; [by repeat constructor |].
  rewrite occurs_String, splitCommas_String. intros H.
  apply orb_false_elim in H as [Hb Ht]. specialize (IH Ht).
  destruct (Ascii.eqb b ","); [by constructor |].
  destruct (splitCommas t) as [|p ps].
  - repeat constructor. by rewrite occurs_String, Hb.
  - apply Forall_cons in IH as [Hp Hps]. constructor; [|done].
    by rewrite occurs_String, Hb, Hp.
Qed.

Lemma no_comma_splitCommas t :
  Forall (λ p, occurs "," p = false) (splitCommas t).
Proof.
  induction t as [|b t IH]; [by repeat constructor |].
  rewrite splitCommas_String.
  destruct (Ascii.eqb b ",") eqn:Hb; [by constructor |].
  destruct (splitCommas t) as [|p ps].
  - repeat constructor. by rewrite occurs_String, Ascii.eqb_sym, Hb.
  - apply Forall_cons in IH as [Hp Hps]. constructor; [|done].
    by rewrite occurs_String, Ascii.eqb_sym, Hb, Hp.
Qed.

Lemma removeSpaces_concat ps :
  Forall (λ p, occurs " " p = false) ps →
  removeSpaces (String.concat ", " ps) = String.concat "," ps.
Proof.
  induction 1 as [|p ps Hp Hps IH]; [done |].
  destruct ps as [|p' ps]; [by apply removeSpaces_id |].
  change (String.concat ", " (p :: p' :: ps))
    with (String.append p
            (String "," (String " " (String.concat ", " (p' :: ps))))).
  change (String.concat "," (p :: p' :: ps))
    with (String.append p (String "," (String.concat "," (p' :: ps)))).
  rewrite removeSpaces_append, removeSpaces_id by done.
  rewrite !removeSpaces_String. simpl (Ascii.eqb _ _). by rewrite IH.
Qed.

(** The service filter of a request, when the field is not empty: the
    pieces between the commas of the field without its spaces.  No piece
    contains a space or a comma, there is at least one piece, and joining
    the pieces with commas gives back the field without its spaces.  An
    empty field gives no filter. *)
Theorem parseServices_pieces field :
  parseServices "" = [] ∧
  (field ≠ "" →
   parseServices field ≠ [] ∧
   String.concat "," (parseServices field) = removeSpaces field ∧
   Forall (λ p, occurs " " p = false ∧ occurs "," p = false)
     (parseServices field)).
Proof.
  split; [done |]. intros Hne. unfold parseServices.
  rewrite bool_decide_eq_false_2 by done.
  split; [apply splitCommas_nonempty |].
  split; [apply concat_splitCommas |].
  apply Forall_and. split.
  - apply occurs_splitCommas, occurs_removeSpaces.
  - apply no_comma_splitCommas.
Qed.

(** The page shows the filter joined with ", " ([strings.Join], read.go
    line 114).  Sending that text back gives the same filter again,
    provided the field had something else than spaces in it. *)
Theorem parseServices_rendered field :
  removeSpaces field ≠ "" →
  parseServices (String.concat ", " (parseServices field))
  = parseServices field.
Proof.
  intros Hne.
  assert (field ≠ "") as Hfield by (by intros ->).
  unfold parseServices at 2 3. rewrite bool_decide_eq_false_2 by done.
  set (ps := splitCommas (removeSpaces field)).
  assert (removeSpaces (String.concat ", " ps) = removeSpaces field) as Heq.
  { rewrite removeSpaces_concat; [apply concat_splitCommas |].
    apply occurs_splitCommas, occurs_removeSpaces. }
  unfold parseServices. rewrite bool_decide_eq_false_2.
  - by rewrite Heq.
  - intros Hempty. rewrite Hempty in Heq. by apply Hne.
Qed.

(** A field made of spaces only is not the empty field: it gives a filter
    with one service, the one with the empty name, and the page then shows
    an empty field, which read back is no filter at all. *)
Theorem parseServices_only_spaces field :
  field ≠ "" → removeSpaces field = "" →
  parseServices field = [""] ∧
  parseServices (String.concat ", " (parseServices field)) = [].
Proof.
  intros Hne Hspaces.
  assert (parseServices field = [""]) as Heq.
  { unfold parseServices. rewrite bool_decide_eq_false_2 by done.
    by rewrite Hspaces. }
  by rewrite Heq.
Qed.

Section RequestFacts.

Context {Store : Type}.
Variable Find : Store → LogQuery → result (list Event).
Context {FormattedEvent : Type}.
Variable Format : Event → FormattedEvent.
Variable formatTime : Time → string.
Variable Parse : string → string + Time.

Local Abbreviation HandleRead' := (HandleRead Find Format formatTime).

(** A request whose time bounds are left empty, or parse to the zero
    instant, is answered from the trailing hour: the storage engine gets
    the filter, cursor and direction of the request with the bounds set
    from the clock.  Serving the page touches neither the registry nor a
    channel nor a query other than the new one. *)
Theorem first_page_window body q s st now1 now2 :
  parseBound Parse (handler.SinceTime body) = inr 0%Z →
  parseBound Parse (handler.UntilTime body) = inr 0%Z →
  ∃ r s',
    DecodeBody Parse (Ok body) q (HandleRead' st now1 now2) s
    = Some (Ok r, s') ∧
    finds s'
    = finds s ++
        [mkLogQuery (parseServices (handler.Services body))
           (handler.Severity body) (now1 - Hour) now2
           (handler.SinceUUID body) (handler.Reverse body)] ∧
    subscribers s' = subscribers s ∧ chans s' = chans s ∧
    ∀ q', q' ≠ q → queries s' !! q' = queries s !! q'.
Proof.
  intros Hsince Huntil. unfold DecodeBody, parseQuery.
  rewrite Hsince, Huntil. simpl.
  set (query := mkLogQuery _ _ _ _ _ _).
  set (s0 := set_queries _ s).
  destruct (HandleRead_spec Find Format formatTime st now1 now2 q s0 query)
    as (r & s' & Hrun & Hsub & Hcs & Hqs & Hfs & _).
  { unfold s0; simpl. apply lookup_insert_eq. }
  rewrite Hrun. simpl. exists r, s'. split; [done |].
  split; [|split; [done |split; [done |]]].
  - rewrite Hfs. unfold s0; simpl. by f_equal.
  - intros q' Hne. rewrite Hqs. unfold s0; simpl.
    by rewrite !lookup_insert_ne.
Qed.

(** A time bound that does not parse fails the request with the wrapped
    parse error, the one of [since_time] when both are malformed; nothing
    is allocated, the next handler is not run and the storage engine is
    not queried. *)
Theorem malformed_time_rejected {A : Type} body q
    (next : loc → State → option (A * State)) s :
  match parseBound Parse (handler.SinceTime body),
        parseBound Parse (handler.UntilTime body) with
  | inl cause, _ | inr _, inl cause =>
      DecodeBody Parse (Ok body) q next s = Some (Err (Wrap cause), s)
  | inr _, inr _ =>
      ∃ query, parseQuery Parse body = Ok query ∧
        DecodeBody Parse (Ok body) q next s
        = next q (set_queries (<[q := query]> (queries s)) s)
            ≫= λ '(a, s'), Some (Ok a, s')
  end.
Proof.
  unfold DecodeBody, parseQuery.
  destruct (parseBound Parse (handler.SinceTime body)) as [c1|t1],
           (parseBound Parse (handler.UntilTime body)) as [c2|t2];
    try done.
  by eexists.
Qed.

End RequestFacts.

(** * From the page to the live tail *)

Section Bridge.

Context {Store : Type}.
Variable Find : Store → LogQuery → result (list Event).
Context {FormattedEvent : Type}.
Variable Format : Event → FormattedEvent.
Variable formatTime : Time → string.
Variable uuid_lt : relation string.
Hypothesis uuid_lt_order : StrictOrder uuid_lt.

Local Abbreviation HandleRead' := (HandleRead Find Format formatTime).

Lemma newest_of_page (newest_first : bool) (events : list Event) u d :
  oldest_first uuid_lt (if newest_first then reverse events else events) →
  resumeCursor newest_first events = Some u → d ∈ events →
  uuid_le uuid_lt (UUID d) u.
Proof.
  intros Hsorted Hcur Hd. rewrite resumeCursor_spec in Hcur.
  destruct events as [|e0 events0] eqn:Hev; [by apply elem_of_nil in Hd |].
  rewrite <- Hev in *. clear Hev.
  destruct newest_first.
  - rewrite <- last_reverse in Hcur.
    destruct (last (reverse events)) as [e|] eqn:Hlast; [|done].
    injection Hcur as <-.
    apply (oldest_first_last uuid_lt (reverse events)); [done..|].
    by apply elem_of_reverse.
  - destruct (last events) as [e|] eqn:Hlast; [|done].
    injection Hcur as <-.
    by apply (oldest_first_last uuid_lt events).
Qed.

(** A live tail that starts from the resume cursor of a page repeats
    nothing of the page: whatever the first pass puts in the buffer of the
    new subscriber lies strictly after every event the page showed, in
    either direction of display. *)
Theorem live_tail_after_page stp now1 now2 qp sp query0 rsp sp' c q s qv ch
    st order s1 s2 :
  page_contract uuid_lt Find stp → Find_contract uuid_lt Find st →
  queries sp !! qp = Some query0 →
  HandleRead' stp now1 now2 qp sp = Some (Ok rsp, sp') →
  LastUUID rsp ≠ "" →
  queries s !! q = Some qv → SinceUUID qv = LastUUID rsp →
  (∀ c', registry s !! c' = Some q → c' = c) → chans s !! c = Some ch →
  Subscribe c q s = Some (None, s1) →
  range_order s1 order → notifySubscribers Find st order s1 = Some s2 →
  ∃ page added,
    Find stp (trailing_window now1 now2 query0) = Ok page ∧
    buffer s2 c = Some (buf ch ++ added) ∧
    ∀ d m, d ∈ page → m ∈ added → uuid_lt (UUID d) (UUID m).
Proof.
  intros Hpage Hlive Hqp Hread Hlast Hq Hseed Honly Hch Hsub Hord Hpass.
  destruct (HandleRead_spec Find Format formatTime stp now1 now2 qp sp
              query0 Hqp)
    as (r & sp'' & Hrun & _ & _ & _ & _ & Hr).
  rewrite Hread in Hrun. injection Hrun as <- <-.
  destruct (Find stp (trailing_window now1 now2 query0)) as [page|e] eqn:Hfind;
    [|done].
  destruct Hr as (rsp' & Heq & _ & Hcur & _). injection Heq as <-.
  rewrite (Subscribe_accepts c q s qv) in Hsub by (done || by rewrite Hseed).
  injection Hsub as <-.
  destruct (pass_entry Find st order _ s2 c q Hord
              (subscriber_after_Subscribe c q s Honly) Hpass)
    as (qv' & Hq' & _ & Hc2).
  simpl in Hq', Hc2. rewrite Hq in Hq'. injection Hq' as <-.
  rewrite Hch in Hc2. simpl in Hc2.
  exists page, (take (room ch) (found Find st qv)).
  split; [done |]. split; [unfold buffer; by rewrite Hc2 |].
  intros d m Hd Hm. apply subseteq_take in Hm.
  pose proof (found_after Find uuid_lt st qv Hlive) as Hafter.
  rewrite Forall_forall in Hafter. specialize (Hafter m Hm).
  unfold after in Hafter. rewrite Hseed in Hafter.
  apply (uuid_le_lt_trans uuid_lt uuid_lt_order _ (LastUUID rsp)); [|done].
  apply (newest_of_page (Reverse query0) page); [|done..].
  destruct (trailing_window_fields now1 now2 query0)
    as (_ & _ & _ & _ & _ & Hrev).
  rewrite <- Hrev. by apply (Hpage (trailing_window now1 now2 query0)).
Qed.

End Bridge.

(** * The streaming connection *)

Section StreamingFacts.

Context {FormattedEvent : Type}.
Variable Format : Event → FormattedEvent.

Implicit Types (inputs : list selected) (written : list FormattedEvent).

Lemma deliver_written inputs written :
  ∃ more, (deliver Format inputs written).2 = written ++ more ∧
    sublist more (Format <$> received_events inputs).
Proof.
  revert written.
  induction inputs as [|[e [|] [|]| |] inputs IH]; intros written; simpl;
    try (exists []; split; [by rewrite app_nil_r | apply sublist_nil_l]).
  - destruct (IH (written ++ [Format e])) as (more & Heq & Hsub).
    exists (Format e :: more). split.
    + by rewrite Heq, <- app_assoc.
    + by apply sublist_skip.
  - destruct (IH written) as (more & Heq & Hsub).
    exists more. split; [done | by apply sublist_cons].
  - destruct (IH written) as (more & Heq & Hsub).
    exists more. split; [done | by apply sublist_cons].
Qed.

Lemma deliver_all_good inputs written :
  Forall (λ i, ∃ e, i = Received e true true) inputs →
  deliver Format inputs written
  = (Waiting, written ++ (Format <$> received_events inputs)).
Proof.
  intros Hall. revert written.
  induction Hall as [|i inputs [e ->] _ IH]; intros written; simpl.
  - by rewrite app_nil_r.
  - by rewrite IH, <- app_assoc.
Qed.

(** The connection is written the events the loop received, in the order
    it received them, each at most once and none that it did not receive;
    when every marshal and every write succeeds and nothing ends the loop,
    it is written all of them. *)
Theorem deliver_in_order inputs :
  sublist (deliver Format inputs []).2 (Format <$> received_events inputs) ∧
  (Forall (λ i, ∃ e, i = Received e true true) inputs →
   deliver Format inputs []
   = (Waiting, Format <$> received_events inputs)).
Proof.
  split.
  - destruct (deliver_written inputs []) as (more & -> & Hsub). done.
  - intros Hall. by rewrite deliver_all_good.
Qed.

(** After a failed write, a closed channel or the end of the read loop the
    delivery loop has returned: what follows is neither read nor
    written. *)
Theorem deliver_stops pre input post written :
  ends_delivery input = true →
  deliver Format (pre ++ input :: post) written
  = deliver Format (pre ++ [input]) written ∧
  ∃ r, (deliver Format (pre ++ input :: post) written).1 = Returned r.
Proof.
  intros Hend. revert written.
  induction pre as [|[e [|] [|]| |] pre IH]; intros written; simpl;
    try (split; [done | by eexists]); try apply IH.
  destruct input as [e [|] [|]| |]; try done; simpl;
    (split; [done | by eexists]).
Qed.

(** However the handler comes to return (failed upgrade, rejected
    subscription, failed write, closed channel, peer gone) and whatever
    the rest of the program did meanwhile, its channel has no entry in the
    registry afterwards, given that it had none before the call. *)
Theorem HandleWebSocket_returns_unsubscribed upgraded events q inputs
    meanwhile s r written s' :
  registry s !! events = None →
  HandleWebSocket Format upgraded events q inputs meanwhile s
  = Some (Returned r, written, s') →
  registry s' !! events = None.
Proof.
  intros Hfresh. unfold HandleWebSocket.
  destruct upgraded; [|by intros [= <- <- <-]].
  unfold Subscribe; simpl.
  destruct (queries s !! q) as [qv|]; [|done]. simpl.
  case_bool_decide as Hcur; simpl.
  - by intros [= <- <- <-].
  - destruct (deliver Format inputs []) as [[r'|] written']; [|done].
    intros [= <- <- <-].
    rewrite registry_Unsubscribe. apply lookup_delete_eq.
Qed.

End StreamingFacts.

Section EmptyPage.

Context {Store : Type}.
Variable Find : Store → LogQuery → result (list Event).
Context {FormattedEvent : Type}.
Variable Format : Event → FormattedEvent.
Variable formatTime : Time → string.

(** A page without events carries the empty cursor, and a streaming
    request that brings that cursor back gets no live tail: once upgraded,
    the handler returns at once, whatever would have arrived, writes
    nothing and registers nothing. *)
Theorem empty_page_no_live_tail stp now1 now2 qp sp query0 :
  queries sp !! qp = Some query0 →
  Find stp (trailing_window now1 now2 query0) = Ok [] →
  ∃ rsp sp',
    HandleRead Find Format formatTime stp now1 now2 qp sp
    = Some (Ok rsp, sp') ∧
    LastUUID rsp = "" ∧
    ∀ events q inputs meanwhile s qv,
      queries s !! q = Some qv → SinceUUID qv = LastUUID rsp →
      ∃ s', HandleWebSocket Format true events q inputs meanwhile s
            = Some (Returned None, [], s') ∧
        subscribers s' = subscribers s ∧ queries s' = queries s.
Proof.
  intros Hqp Hfind.
  destruct (HandleRead_spec Find Format formatTime stp now1 now2 qp sp
              query0 Hqp)
    as (r & sp' & Hrun & _ & _ & _ & _ & Hr).
  rewrite Hfind in Hr. destruct Hr as (rsp & -> & _ & Hcur & _).
  rewrite resumeCursor_spec in Hcur. injection Hcur as Hcur.
  exists rsp, sp'. split; [done |]. split; [done |].
  intros events q inputs meanwhile s qv Hq Hseed.
  unfold HandleWebSocket, Subscribe; simpl. rewrite Hq. simpl.
  rewrite bool_decide_eq_true_2 by (by rewrite Hseed). simpl.
  by eexists.
Qed.

End EmptyPage.

(** * The further theorems at the scenarios *)

Lemma logFind_page_contract log :
  oldest_first lex_lt log → page_contract lex_lt logFind (Some log).
Proof.
  intros Hsorted q events Hfind. simpl in Hfind. injection Hfind as <-.
  destruct (Reverse q); [rewrite reverse_involutive |];
    by apply oldest_first_filter.
Qed.

Lemma scenario_log_oldest_first : oldest_first lex_lt scenario_log.
Proof. unfold oldest_first, scenario_log. repeat constructor. Qed.

Lemma Subscribe_Unsubscribe_witness :
  ∃ s1, Subscribe 3%nat 20%nat scenario_state = Some (None, s1) ∧
    registry (Unsubscribe 3%nat s1) = registry scenario_state.
Proof.
  destruct (Subscribe_Unsubscribe 3%nat 20%nat scenario_state
              (scenario_query "u5" false))
    as (s1 & Hsub & _ & _ & Hback & _).
  - reflexivity.
  - discriminate.
  - exists s1. split; [exact Hsub |]. apply Hback. reflexivity.
Defined.

Lemma Subscribe_last_wins_witness :
  ∃ s1 s2, Subscribe 3%nat 10%nat scenario_state = Some (None, s1) ∧
    Subscribe 3%nat 20%nat s1 = Some (None, s2) ∧
    registry s2 !! 3%nat = Some 20%nat.
Proof.
  destruct (Subscribe_last_wins 3%nat 10%nat 20%nat scenario_state
              (scenario_query "u3" true) (scenario_query "u5" false))
    as (s1 & s2 & H1 & H2 & _ & Hreg).
  - reflexivity.
  - discriminate.
  - reflexivity.
  - discriminate.
  - exists s1, s2. split; [exact H1 |]. split; [exact H2 | exact Hreg].
Defined.

Lemma scenario_viewer_fresh q c c' :
  q ≠ 10%nat → q ≠ 20%nat → registry scenario_viewer !! c' = Some q → c' = c.
Proof.
  intros H10 H20 H. by apply scenario_registry in H as [[_ ?]|[_ ?]].
Qed.


Lemma Unsubscribe_then_notify_witness :
  chans (default scenario_state
           (notifySubscribers logFind (Some scenario_log)
              (map_to_list (registry (Unsubscribe 1%nat scenario_state)))
              (Unsubscribe 1%nat scenario_state))) !! 1%nat
  = chans scenario_state !! 1%nat.
Proof.
  apply (Unsubscribe_then_notify logFind 1%nat scenario_state
           (Some scenario_log)
           (map_to_list (registry (Unsubscribe 1%nat scenario_state)))).
  - unfold range_order. reflexivity.
  - vm_compute. reflexivity.
Defined.

Lemma notify_empty_registry_witness :
  notifySubscribers logFind (Some scenario_log) []
    (set_subscribers None scenario_state)
  = Some (set_subscribers None scenario_state).
Proof.
  apply (notify_empty_registry logFind (Some scenario_log) []
           (set_subscribers None scenario_state)).
  - reflexivity.
  - unfold range_order. reflexivity.
Defined.

Lemma notify_keeps_channels_witness :
  ∃ ch', chans scenario_after !! 1%nat = Some ch' ∧
    grows (mkChannel 2 [] false) ch' ∧ (length (buf ch') ≤ 2)%nat.
Proof.
  destruct (notify_keeps_channels logFind (Some scenario_log) scenario_order
              scenario_state scenario_after 1%nat scenario_pass)
    as (ch' & Hch' & Hgrow & Hbound).
  exists ch'. split; [exact Hch' |]. split; [exact Hgrow |].
  destruct Hgrow as (Hcap & _). simpl in Hcap, Hbound.
  rewrite Hcap in Hbound. apply Hbound. lia.
Defined.

Lemma notify_keeps_filters_witness :
  ∃ qv', queries scenario_after !! 10%nat = Some qv' ∧
    same_filter (scenario_query "u3" true) qv'.
Proof.
  destruct (notify_keeps_filters logFind (Some scenario_log) scenario_order
              scenario_state scenario_after 10%nat scenario_pass)
    as (qv' & Hq' & Hsame & _).
  exists qv'. split; [exact Hq' | exact Hsame].
Defined.

Lemma scenario_activities_ok :
  Forall (pass_ok lex_lt logFind scenario_state) scenario_activities.
Proof.
  unfold scenario_activities.
  repeat (apply Forall_cons; split); try apply Forall_nil; try exact I;
    (split; [|apply scenario_order_range]).
  - apply scenario_log_contract.
  - apply scenario_log_later_contract.
Qed.

Lemma tail_in_order_witness :
  ∃ ch',
    tail logFind 1%nat scenario_activities [] scenario_state
    = Some scenario_tail ∧
    chans scenario_tail.2 !! 1%nat = Some ch' ∧
    NoDup (UUID <$> scenario_tail.1 ++ buf ch') ∧
    Forall (after lex_lt "u3") (scenario_tail.1 ++ buf ch').
Proof.
  destruct (tail_in_order logFind lex_lt lex_lt_strict 1%nat 10%nat
              scenario_activities scenario_state scenario_tail.2
              (scenario_query "u3" true) (mkChannel 2 [] false)
              scenario_tail.1)
    as (ch' & Hch' & _ & Hnodup & Hafter).
  - apply scenario_activities_ok.
  - apply scenario_subscriber_1.
  - reflexivity.
  - reflexivity.
  - reflexivity.
  - vm_compute. reflexivity.
  - exists ch'. split; [vm_compute; reflexivity |]. split; [exact Hch' |].
    split; [exact Hnodup | exact Hafter].
Defined.

Lemma Start_runs_passes_witness :
  Start logFind 2%N (Some (mkLogRepository "/var/log")) None None
    scenario_signals scenario_state
  = notifyPasses logFind
      [(Some scenario_log, scenario_order);
       (Some scenario_log_later, scenario_order)] scenario_state
      ≫= λ s', Some (Returned None, s').
Proof.
  apply (Start_runs_passes logFind 2%N (mkLogRepository "/var/log")
           scenario_signals scenario_state).
  discriminate.
Defined.

Lemma Start_stops_witness :
  Start logFind 2%N (Some (mkLogRepository "/var/log")) None None
    scenario_signals scenario_state
  = Start logFind 2%N (Some (mkLogRepository "/var/log")) None None
      (take 4 scenario_signals) scenario_state.
Proof.
  apply (Start_stops logFind 2%N (Some (mkLogRepository "/var/log")) None None
           (take 3 scenario_signals) EventsClosed (drop 4 scenario_signals)
           scenario_state).
  reflexivity.
Defined.

Lemma Start_skips_non_writes_witness :
  ∃ e, Start logFind 2%N (Some (mkLogRepository "/var/log")) None None
         [FileEvent 16 (Some scenario_log) scenario_order;
          FileEvent 1 (Some scenario_log) scenario_order]
         scenario_state
       = Some (e, scenario_state).
Proof.
  apply (Start_skips_non_writes logFind 2%N).
  intros op st order Hin.
  apply elem_of_cons in Hin as [Heq|Hin]; [by injection Heq as -> _ _ |].
  apply list_elem_of_singleton in Hin. by injection Hin as -> _ _.
Defined.

Lemma is_write_bits_witness :
  is_write 2 18 = true ∧ is_write 2 16 = false.
Proof.
  split.
  - apply (proj1 (is_write_bits 2%N 16%N)).
  - apply (proj2 (is_write_bits 2%N 16%N)); [discriminate | reflexivity].
Defined.

Lemma parseServices_pieces_witness :
  String.concat "," (parseServices "lighting, heating") = "lighting,heating".
Proof.
  apply (proj2 (parseServices_pieces "lighting, heating")). discriminate.
Defined.

Lemma parseServices_rendered_witness :
  parseServices (String.concat ", " (parseServices "lighting ,heating"))
  = ["lighting"; "heating"].
Proof.
  apply (parseServices_rendered "lighting ,heating"). discriminate.
Defined.

Lemma parseServices_only_spaces_witness :
  parseServices "  " = [""] ∧
  parseServices (String.concat ", " (parseServices "  ")) = [].
Proof.
  apply (parseServices_only_spaces "  "); [discriminate | reflexivity].
Defined.

Lemma first_page_window_witness :
  ∃ r s',
    DecodeBody scenario_Parse (Ok scenario_request) 60%nat
      (HandleRead logFind id (λ _, "") (Some scenario_log)
         3600000000001 3600000000002) scenario_state
    = Some (Ok r, s') ∧
    finds s'
    = [mkLogQuery ["lighting"; "heating"] 0 1 3600000000002 "" false].
Proof.
  destruct (first_page_window logFind id (λ _, "") scenario_Parse
              scenario_request 60%nat scenario_state (Some scenario_log)
              3600000000001 3600000000002)
    as (r & s' & Hrun & Hfinds & _).
  - reflexivity.
  - reflexivity.
  - exists r, s'. split; [exact Hrun | exact Hfinds].
Defined.

Example malformed_time_example :
  DecodeBody scenario_Parse
    (Ok (handler.mkReadRequest "" 0 "yesterday" "0001-01-01T01:00" "" false))
    60%nat
    (HandleRead logFind id (λ _, "") (Some scenario_log) 1 2) scenario_state
  = Some (Err (Wrap "cannot parse time"), scenario_state).
Proof. reflexivity. Qed.

Lemma live_tail_after_page_witness :
  ∃ page added,
    logFind (Some scenario_log)
      (trailing_window 3600000000001 3600000000002
         (scenario_query "u3" true))
    = Ok page ∧
    buffer scenario_resumed_after 3%nat = Some ([] ++ added) ∧
    ∀ d m, d ∈ page → m ∈ added → lex_lt (UUID d) (UUID m).
Proof.
  eapply (live_tail_after_page logFind id (λ _, "") lex_lt lex_lt_strict
            (Some scenario_log) 3600000000001 3600000000002 10%nat
            scenario_state (scenario_query "u3" true) _ _ 3%nat 50%nat
            scenario_viewer (scenario_query "u6" true)
            (mkChannel 50 [] false) (Some scenario_log_later)
            scenario_resumed_order scenario_resumed scenario_resumed_after).
  - apply logFind_page_contract, scenario_log_oldest_first.
  - apply scenario_log_later_contract.
  - reflexivity.
  - vm_compute. reflexivity.
  - discriminate.
  - reflexivity.
  - reflexivity.
  - intros c'. apply scenario_viewer_fresh; discriminate.
  - reflexivity.
  - reflexivity.
  - unfold range_order, scenario_resumed_order. reflexivity.
  - vm_compute. reflexivity.
Defined.

Lemma deliver_in_order_witness :
  sublist (deliver id scenario_inputs []).2
    (id <$> received_events scenario_inputs) ∧
  deliver id (take 1 scenario_inputs) []
  = (Waiting, [event "u4" "lighting" 4]).
Proof.
  split.
  - apply (proj1 (deliver_in_order id scenario_inputs)).
  - apply (proj2 (deliver_in_order id (take 1 scenario_inputs))).
    repeat constructor. by eexists.
Defined.

Lemma deliver_stops_witness :
  deliver id scenario_inputs [] = deliver id (take 3 scenario_inputs) [].
Proof.
  apply (deliver_stops id (take 2 scenario_inputs)
           (Received (event "u6" "lighting" 6) true false)
           (drop 3 scenario_inputs) []).
  reflexivity.
Defined.

Lemma HandleWebSocket_returns_unsubscribed_witness :
  ∃ r written s',
    HandleWebSocket id true 3%nat 40%nat scenario_inputs id scenario_viewer
    = Some (Returned r, written, s') ∧
    registry s' !! 3%nat = None.
Proof.
  eexists _, _, _. split; [vm_compute; reflexivity |].
  eapply (HandleWebSocket_returns_unsubscribed id true 3%nat 40%nat
            scenario_inputs id scenario_viewer).
  - reflexivity.
  - vm_compute. reflexivity.
Defined.

Lemma empty_page_no_live_tail_witness :
  ∃ rsp sp' s',
    HandleRead logFind id (λ _, "") (Some []) 3600000000001 3600000000002
      20%nat scenario_state
    = Some (Ok rsp, sp') ∧
    HandleWebSocket id true 3%nat 30%nat scenario_inputs id scenario_state
    = Some (Returned None, [], s').
Proof.
  destruct (empty_page_no_live_tail logFind id (λ _, "") (Some [])
              3600000000001 3600000000002 20%nat scenario_state
              (scenario_query "u5" false))
    as (rsp & sp' & Hread & Hlast & Hlive).
  - reflexivity.
  - reflexivity.
  - destruct (Hlive 3%nat 30%nat scenario_inputs id scenario_state
                (scenario_query "" false))
      as (s' & Hrun & _).
    + reflexivity.
    + rewrite Hlast. reflexivity.
    + exists rsp, sp', s'. split; [exact Hread | exact Hrun].
Defined.

(** * A shared query, and the first pass of a live tail *)

Section Sharing.

Context {Store : Type}.
Variable Find : Store → LogQuery → result (list Event).
Variable uuid_lt : relation string.
Hypothesis uuid_lt_order : StrictOrder uuid_lt.

Lemma shared_two_steps st c c' q s s' qv ch ch' :
  Find_contract uuid_lt Find st → c ≠ c' →
  queries s !! q = Some qv → chans s !! c = Some ch →
  chans s !! c' = Some ch' →
  notifyLoop Find st [(c, q); (c', q)] s = Some s' →
  ∃ a a', buffer s' c = Some (buf ch ++ a) ∧
    buffer s' c' = Some (buf ch' ++ a') ∧
    ∀ d m, d ∈ a → m ∈ a' → uuid_lt (UUID d) (UUID m).
Proof.
  intros Hc Hne Hq Hch Hch' Hrun. cbn [notifyLoop] in Hrun.
  destruct (notifyOne Find st c q s) as [s1|] eqn:Hone; [|done].
  apply notifyOne_spec in Hone as (qv0 & Hq0 & _ & _ & Hqs & Hc1 & Hframe).
  rewrite Hq in Hq0. injection Hq0 as <-.
  simpl in Hrun.
  destruct (notifyOne Find st c' q s1) as [s2|] eqn:Htwo; [|done].
  apply notifyOne_spec in Htwo as (qv1 & Hq1 & _ & _ & _ & Hc2 & Hframe2).
  simpl in Hrun. injection Hrun as <-.
  rewrite Hqs, lookup_insert_eq in Hq1. injection Hq1 as <-.
  rewrite Hframe in Hc2 by done. rewrite Hch' in Hc2.
  rewrite Hch in Hc1.
  exists (take (room ch) (found Find st qv)),
         (take (room ch') (found Find st (step_query Find st qv))).
  split; [unfold buffer; by rewrite Hframe2, Hc1 |].
  split; [unfold buffer; by rewrite Hc2 |].
  intros d m Hd Hm. apply subseteq_take in Hd, Hm.
  pose proof (found_after Find uuid_lt st (step_query Find st qv) Hc)
    as Hafter.
  rewrite Forall_forall in Hafter. specialize (Hafter m Hm).
  unfold after in Hafter. rewrite SinceUUID_step_query in Hafter.
  destruct (last (found Find st qv)) as [l|] eqn:Hlast.
  - simpl in Hafter.
    apply (uuid_le_lt_trans uuid_lt uuid_lt_order _ (UUID l)); [|done].
    apply (oldest_first_last uuid_lt (found Find st qv)); [|done..].
    by apply found_oldest_first.
  - apply last_None in Hlast. rewrite Hlast in Hd.
    by apply elem_of_nil in Hd.
Qed.

(** When two channels are subscribed with one and the same query object,
    a pass does not give both of them the new events: the channel visited
    second is asked from the cursor the first visit left, so all it gets
    lies strictly after all the first one got. *)
Theorem shared_query_splits st order c1 c2 q s s' qv ch1 ch2 :
  Find_contract uuid_lt Find st → c1 ≠ c2 →
  registry s = {[ c1 := q; c2 := q ]} → range_order s order →
  queries s !! q = Some qv →
  chans s !! c1 = Some ch1 → chans s !! c2 = Some ch2 →
  notifySubscribers Find st order s = Some s' →
  ∃ a1 a2, buffer s' c1 = Some (buf ch1 ++ a1) ∧
    buffer s' c2 = Some (buf ch2 ++ a2) ∧
    ((∀ d m, d ∈ a1 → m ∈ a2 → uuid_lt (UUID d) (UUID m)) ∨
     (∀ d m, d ∈ a2 → m ∈ a1 → uuid_lt (UUID d) (UUID m))).
Proof.
  intros Hc Hne Hreg Hord Hq Hch1 Hch2 Hpass.
  unfold range_order in Hord. rewrite Hreg in Hord.
  rewrite map_to_list_insert in Hord
    by (by rewrite lookup_singleton_ne).
  rewrite map_to_list_singleton in Hord. symmetry in Hord.
  apply Permutation_length_2_inv in Hord as [->| ->].
  - destruct (shared_two_steps st c1 c2 q s s' qv ch1 ch2)
      as (a1 & a2 & H1 & H2 & Hlt); try done.
    exists a1, a2. split; [done |]. split; [done |]. by left.
  - destruct (shared_two_steps st c2 c1 q s s' qv ch2 ch1)
      as (a2 & a1 & H2 & H1 & Hlt); try done.
    exists a1, a2. split; [done |]. split; [done |]. by right.
Qed.

End Sharing.

Section FirstPass.

Context {Store : Type}.
Variable Find : Store → LogQuery → result (list Event).
Context {FormattedEvent : Type}.
Variable Format : Event → FormattedEvent.


End FirstPass.

Lemma shared_query_splits_witness :
  ∃ a1 a2, buffer scenario_shared_after 1%nat = Some ([] ++ a1) ∧
    buffer scenario_shared_after 2%nat = Some ([] ++ a2) ∧
    ((∀ d m, d ∈ a1 → m ∈ a2 → lex_lt (UUID d) (UUID m)) ∨
     (∀ d m, d ∈ a2 → m ∈ a1 → lex_lt (UUID d) (UUID m))).
Proof.
  apply (shared_query_splits logFind lex_lt lex_lt_strict (Some scenario_log)
           scenario_shared_order 1%nat 2%nat 10%nat scenario_shared
           scenario_shared_after (scenario_query "u3" true)
           (mkChannel 2 [] false) (mkChannel 50 [] false)).
  - apply scenario_log_contract.
  - discriminate.
  - reflexivity.
  - unfold range_order, scenario_shared_order. reflexivity.
  - reflexivity.
  - reflexivity.
  - reflexivity.
  - vm_compute. reflexivity.
Defined.

Example scenario_shared_buffers :
  scenario_shared_order = [(2, 10); (1, 10)]%nat ∧
  buffer scenario_shared_after 2%nat
    = Some [event "u4" "lighting" 4; event "u5" "lighting" 5;
            event "u6" "lighting" 6] ∧
  buffer scenario_shared_after 1%nat = Some [] ∧
  cursor scenario_shared_after 10%nat = Some "u6".
Proof. vm_compute. done. Qed.


(** * Dropped events *)

Section Dropped.

Context {Store : Type}.
Variable Find : Store → LogQuery → result (list Event).
Variable uuid_lt : relation string.
Hypothesis uuid_lt_order : StrictOrder uuid_lt.

Implicit Types (st : Store) (s : State) (c : chan) (q : loc).
Implicit Types (order : list (chan * loc)) (seen : list Event).

(** Whatever passes and receives follow, what reaches the reader of a
    subscriber's channel beyond what was already there lies strictly after
    any identifier that the cursor has reached. *)
Lemma tail_later u c q acts s s' qv ch seen0 seen before more0 :
  Forall (pass_ok uuid_lt Find s) acts → subscriber s c q →
  queries s !! q = Some qv → chans s !! c = Some ch →
  uuid_le uuid_lt u (SinceUUID qv) →
  seen0 ++ buf ch = before ++ more0 → Forall (after uuid_lt u) more0 →
  tail Find c acts seen0 s = Some (seen, s') →
  ∃ ch' more, chans s' !! c = Some ch' ∧
    seen ++ buf ch' = before ++ more ∧ Forall (after uuid_lt u) more.
Proof.
  revert s qv ch seen0 more0.
  induction acts as [|[st order|] acts IH];
    intros s qv ch seen0 more0 Hok Hsub Hq Hch Hu Heq Hmore Hrun.
  - simpl in Hrun. simplify_eq. by exists ch, more0.
  - apply Forall_cons in Hok as [[Hc Hord] Hok]. simpl in Hrun.
    destruct (notifySubscribers Find st order s) as [s1|] eqn:Hpass;
      [|done].
    simpl in Hrun.
    pose proof (notifyLoop_subscribers Find st order s s1 Hpass) as Hsame.
    destruct (pass_entry Find st order s s1 c q Hord Hsub Hpass)
      as (qv' & Hq' & Hq1 & Hc1).
    rewrite Hq in Hq'. injection Hq' as <-.
    rewrite Hch in Hc1. simpl in Hc1.
    apply (IH s1 (step_query Find st qv) (offer (found Find st qv) ch)
             seen0 (more0 ++ take (room ch) (found Find st qv)));
      try done.
    + eapply Forall_impl; [exact Hok |]. intros [st' order'|]; [|done].
      intros [? ?]. split; [done |].
      by apply (range_order_same_registry s).
    + by apply (subscriber_same_registry s).
    + apply (uuid_le_trans uuid_lt uuid_lt_order _ (SinceUUID qv));
        [done |].
      by apply step_query_forward.
    + simpl. by rewrite !app_assoc, Heq.
    + apply Forall_app. split; [done |]. apply Forall_take.
      eapply Forall_impl; [by apply (found_after Find uuid_lt st qv) |].
      intros m Hm. unfold after in *.
      by apply (uuid_le_lt_trans uuid_lt uuid_lt_order _ (SinceUUID qv)).
  - apply Forall_cons in Hok as [_ Hok]. simpl in Hrun.
    destruct (receive c s) as [[e s1]|] eqn:Hrecv.
    + apply receive_spec in Hrecv
        as (ch0 & rest & Hch0 & Hbuf & Hsame & Hqs & _ & Hcs).
      rewrite Hch in Hch0. injection Hch0 as <-.
      apply (IH s1 qv (mkChannel (cap ch) rest (closed ch))
               (seen0 ++ [e]) more0); try done.
      * eapply Forall_impl; [exact Hok |]. intros [st' order'|]; [|done].
        intros [? ?]. split; [done |].
        by apply (range_order_same_registry s).
      * by apply (subscriber_same_registry s).
      * by rewrite Hqs.
      * rewrite Hcs. apply lookup_insert_eq.
      * simpl. rewrite <- app_assoc. simpl. by rewrite <- Hbuf.
    + by apply (IH s qv ch seen0 more0).
Qed.

(** C2.  When the storage query of a subscriber returns a non-empty
    batch, the pass sets the cursor to the identifier of the last event of
    the batch whatever the channel could take; a channel whose buffer was
    full has taken nothing.  Under the contract of the storage engine, let
    passes and receives then follow in any way: all that reaches the
    reader or the buffer beyond what was waiting after this pass lies
    strictly after that cursor, so an event of the batch that was not
    waiting then is never delivered. *)
Theorem cursor_advances_past_dropped st order s s1 c q qv events e :
  range_order s order → subscriber s c q →
  queries s !! q = Some qv →
  Find st (set_Reverse false qv) = Ok events → last events = Some e →
  notifySubscribers Find st order s = Some s1 →
  cursor s1 q = Some (UUID e) ∧
  (∀ ch, chans s !! c = Some ch → (cap ch ≤ length (buf ch))%nat →
     chans s1 !! c = Some ch) ∧
  (Find_contract uuid_lt Find st →
   ∀ waiting acts seen s2,
     buffer s1 c = Some waiting →
     Forall (pass_ok uuid_lt Find s) acts →
     tail Find c acts [] s1 = Some (seen, s2) →
     ∃ later more,
       buffer s2 c = Some later ∧
       seen ++ later = waiting ++ more ∧
       Forall (after uuid_lt (UUID e)) more ∧
       ∀ d, d ∈ events →
         (d ∉ more) ∧ (d ∉ waiting → d ∉ seen ++ later)).
Proof.
  intros Hord Hsub Hq Hfind Hlast Hpass.
  pose proof (notifyLoop_subscribers Find st order s s1 Hpass) as Hsame.
  destruct (pass_entry Find st order s s1 c q Hord Hsub Hpass)
    as (qv' & Hq' & Hq1 & Hc1).
  rewrite Hq in Hq'. injection Hq' as <-.
  assert (found Find st qv = events) as Hfound
    by (unfold found; by rewrite Hfind).
  rewrite Hfound in Hc1.
  assert (SinceUUID (step_query Find st qv) = UUID e) as Hcur
    by (by rewrite SinceUUID_step_query, Hfound, Hlast).
  split; [unfold cursor; by rewrite Hq1; simpl; rewrite Hcur |].
  split.
  { intros ch Hch Hfull. rewrite Hc1, Hch. simpl. by rewrite offer_full. }
  intros Hc waiting acts seen s2 Hwaiting Hok Hrun.
  unfold buffer in Hwaiting.
  destruct (chans s1 !! c) as [ch1|] eqn:Hch1; [|done].
  injection Hwaiting as <-.
  destruct (tail_later (UUID e) c q acts s1 s2 (step_query Find st qv) ch1
              [] seen (buf ch1) [])
    as (ch2 & more & Hch2 & Heq & Hmore); try done.
  { eapply Forall_impl; [exact Hok |]. intros [st' order'|]; [|done].
    intros [? ?]. split; [done |].
    by apply (range_order_same_registry s). }
  { by apply (subscriber_same_registry s). }
  { rewrite Hcur. apply uuid_le_refl. }
  { by rewrite app_nil_r. }
  exists (buf ch2), more. split; [unfold buffer; by rewrite Hch2 |].
  split; [done |]. split; [done |].
  intros d Hd.
  assert (uuid_le uuid_lt (UUID d) (UUID e)) as Hle.
  { apply (oldest_first_last uuid_lt events); [|done..].
    rewrite <- Hfound. by apply found_oldest_first. }
  assert (d ∉ more) as Hnot.
  { intros Hin. rewrite Forall_forall in Hmore. specialize (Hmore d Hin).
    by apply (uuid_le_not_lt uuid_lt uuid_lt_order _ _ Hle). }
  split; [done |]. intros Hnw. rewrite Heq. intros Hin.
  apply elem_of_app in Hin as [?|?]; done.
Qed.

End Dropped.

Lemma scenario_resumption_ok :
  Forall (pass_ok lex_lt logFind scenario_state) scenario_resumption.
Proof.
  unfold scenario_resumption.
  repeat (apply Forall_cons; split); try apply Forall_nil; try exact I.
  split; [apply scenario_log_later_contract | apply scenario_order_range].
Qed.

Example scenario_resumed_reader :
  tail logFind 1%nat scenario_resumption [] scenario_after
    = Some scenario_resumed_tail ∧
  buffer scenario_after 1%nat
    = Some [event "u4" "lighting" 4; event "u5" "lighting" 5] ∧
  scenario_resumed_tail.1
    = [event "u4" "lighting" 4; event "u5" "lighting" 5;
       event "u7" "lighting" 7] ∧
  buffer scenario_resumed_tail.2 1%nat = Some [].
Proof. vm_compute. done. Qed.

Lemma cursor_advances_past_dropped_witness :
  cursor scenario_after 10%nat = Some "u6" ∧
  ∃ later more,
    buffer scenario_resumed_tail.2 1%nat = Some later ∧
    scenario_resumed_tail.1 ++ later
    = [event "u4" "lighting" 4; event "u5" "lighting" 5] ++ more ∧
    event "u7" "lighting" 7 ∈ more ∧
    event "u6" "lighting" 6 ∉ scenario_resumed_tail.1 ++ later.
Proof.
  destruct (cursor_advances_past_dropped logFind lex_lt lex_lt_strict
              (Some scenario_log) scenario_order scenario_state scenario_after
              1%nat 10%nat (scenario_query "u3" true)
              [event "u4" "lighting" 4; event "u5" "lighting" 5;
               event "u6" "lighting" 6]
              (event "u6" "lighting" 6))
    as (Hcur & _ & Hlater).
  - apply scenario_order_range.
  - apply scenario_subscriber_1.
  - reflexivity.
  - vm_compute. reflexivity.
  - reflexivity.
  - apply scenario_pass.
  - destruct (Hlater scenario_log_contract
                [event "u4" "lighting" 4; event "u5" "lighting" 5]
                scenario_resumption scenario_resumed_tail.1
                scenario_resumed_tail.2)
      as (later & more & Hbuf & Heq & _ & Hdropped).
    + vm_compute. reflexivity.
    + apply scenario_resumption_ok.
    + vm_compute. reflexivity.
    + split; [exact Hcur |]. exists later, more.
      split; [exact Hbuf |]. split; [exact Heq |]. split.
      * assert (later = []) as Hlater0.
        { vm_compute in Hbuf. injection Hbuf as <-. reflexivity. }
        rewrite Hlater0 in Heq. vm_compute in Heq.
        injection Heq as <-. left.
      * apply (Hdropped (event "u6" "lighting" 6)).
        -- right. right. left.
        -- intros Hin. vm_compute in Hin.
           apply elem_of_cons in Hin as [Hin|Hin]; [discriminate Hin |].
           apply elem_of_cons in Hin as [Hin|Hin]; [discriminate Hin |].
           by apply elem_of_nil in Hin.
Defined.
